(** * phylib: ALF dataset generation (phylib/io/alf.py)

    A shallow embedding of the ALF exporter of phylib and of the sparse
    projection exercised by phylib/io/tests/test_model.py, together with
    the properties stated for them in the specification. *)

From Equations Require Import Equations.
From Stdlib Require Import ZArith List Ascii String Permutation Lia.
From Stdlib.Strings Require Import Byte.
From stdpp Require Import base option list gmap strings sorting pretty.

Set Warnings "-register-all".
Local Open Scope Z_scope.
Local Open Scope string_scope.
Local Open Scope list_scope.

(** ** Python exceptions and fallible computations *)

Inductive exn : Type :=
| IOError | FileNotFoundError | ValueError | IndexError | KeyError
| TypeError | SyntaxError | AssertionError | NotImplementedError
| SameFileError.

Inductive result (A : Type) : Type :=
| Ok (a : A)
| Raise (e : exn).
Arguments Ok {A} a.
Arguments Raise {A} e.

#[export] Instance result_ret : MRet result := fun A a => Ok a.
#[export] Instance result_bind : MBind result := fun A B f r =>
  match r with Ok a => f a | Raise e => Raise e end.
#[export] Instance result_fmap : FMap result := fun A B f r =>
  match r with Ok a => Ok (f a) | Raise e => Raise e end.

Definition is_ok {A} (r : result A) : bool :=
  match r with Ok _ => true | Raise _ => false end.

(** [l[i]] with a non-negative index: IndexError out of range. *)
Definition getitem {A} (l : list A) (i : nat) : result A :=
  match l !! i with Some a => Ok a | None => Raise IndexError end.

(** [for x in xs: ys.append(f x)], stopping at the first exception. *)
Fixpoint mapR {A B} (f : A -> result B) (xs : list A) : result (list B) :=
  match xs with
  | [] => Ok []
  | x :: xs' => y ← f x; ys ← mapR f xs'; mret (y :: ys)
  end.

(** ** HeaderReader: [_read_npy_header] *)

(** The Python values a header literal can hold. *)
Inductive pyval : Type :=
| PyBytes (b : list byte)
| PyInt (z : Z)
| PyStr (s : string)
| PyBool (b : bool)
| PyTuple (l : list pyval).

(** [int.from_bytes(bs, byteorder='little')] *)
Fixpoint int_from_bytes_little (bs : list byte) : Z :=
  match bs with
  | [] => 0
  | b :: bs' => Z.of_N (Byte.to_N b) + 256 * int_from_bytes_little bs'
  end.

(** [ast.literal_eval(bytes.decode())] belongs to the Python library; the
    [{**d, **...}] that consumes its value requires a dict with string
    keys.  Any failure (decoding, syntax, a value that is no dict) is an
    exception. *)
Class LiteralEval := literal_eval : list byte -> result (gmap string pyval).

(** [fid.read(n)] hands out at most [n] bytes and never fails: the file is
    the list of bytes still to be read. *)
Definition _read_npy_header `{LiteralEval} (file : list byte)
  : result (gmap string pyval) :=
  let magic_string := take 6 file in
  let file := drop 6 file in
  let version := take 2 file in
  let file := drop 2 file in
  let len := int_from_bytes_little (take 2 file) in
  let file := drop 2 file in
  let d : gmap string pyval :=
    <["len" := PyInt len]>
      (<["version" := PyBytes version]>
         (<["magic_string" := PyBytes magic_string]> ∅)) in
  h ← literal_eval (take (Z.to_nat len) file);
  (* {**d, **h}: the keys of h win *)
  mret (h ∪ d).

(** *** A reader for the literals numpy writes

    The fragment of [ast.literal_eval] that covers the header dict of an
    [.npy] file: a dict whose keys are quoted strings and whose values are
    quoted strings, [True], [False], integers and tuples of integers. *)

Inductive token : Type :=
| TLBrace | TRBrace | TLParen | TRParen | TColon | TComma
| TStr (s : string) | TInt (n : N) | TName (s : string).

Inductive lexstate : Type :=
| LIdle
| LStr (acc : list ascii)
| LNum (n : N)
| LName (acc : list ascii).

Definition string_of_rev (acc : list ascii) : string :=
  string_of_list_ascii (rev acc).

Definition is_digit (c : ascii) : option N :=
  let n := N_of_ascii c in
  if ((48 <=? n) && (n <=? 57))%N then Some (n - 48)%N else None.

Definition is_alpha (c : ascii) : bool :=
  let n := N_of_ascii c in
  (((65 <=? n) && (n <=? 90)) || ((97 <=? n) && (n <=? 122)))%N.

Definition is_space (c : ascii) : bool :=
  let n := N_of_ascii c in ((n =? 32) || (n =? 10) || (n =? 9) || (n =? 13))%N.

Definition punct (c : ascii) : option token :=
  if Ascii.eqb c "{" then Some TLBrace
  else if Ascii.eqb c "}" then Some TRBrace
  else if Ascii.eqb c "(" then Some TLParen
  else if Ascii.eqb c ")" then Some TRParen
  else if Ascii.eqb c ":" then Some TColon
  else if Ascii.eqb c "," then Some TComma
  else None.

(** One character outside a string literal, no token pending. *)
Definition lex_idle (c : ascii) : option (list token * lexstate) :=
  if Ascii.eqb c "'" then Some ([], LStr [])
  else if is_space c then Some ([], LIdle)
  else match punct c with
       | Some t => Some ([t], LIdle)
       | None =>
           match is_digit c with
           | Some d => Some ([], LNum d)
           | None => if is_alpha c then Some ([], LName [c]) else None
           end
       end.

Fixpoint lex (st : lexstate) (cs : list ascii) : option (list token) :=
  match cs with
  | [] =>
      match st with
      | LIdle => Some []
      | LStr _ => None
      | LNum n => Some [TInt n]
      | LName acc => Some [TName (string_of_rev acc)]
      end
  | c :: cs' =>
      match st with
      | LStr acc =>
          if Ascii.eqb c "'" then (TStr (string_of_rev acc) ::.) <$> lex LIdle cs'
          else lex (LStr (c :: acc)) cs'
      | LNum n =>
          match is_digit c with
          | Some d => lex (LNum (10 * n + d)) cs'
          | None =>
              '(ts, st') ← lex_idle c;
              rest ← lex st' cs';
              Some (TInt n :: ts ++ rest)
          end
      | LName acc =>
          if is_alpha c then lex (LName (c :: acc)) cs'
          else
            '(ts, st') ← lex_idle c;
            rest ← lex st' cs';
            Some (TName (string_of_rev acc) :: ts ++ rest)
      | LIdle =>
          '(ts, st') ← lex_idle c;
          rest ← lex st' cs';
          Some (ts ++ rest)
      end
  end.

(** The items of a tuple after its opening parenthesis; the flag records
    whether a comma was seen ([(3)] is the integer 3, [(3,)] a tuple). *)
Fixpoint parse_items (ts : list token) : option (list pyval * bool * list token) :=
  match ts with
  | TRParen :: rest => Some ([], false, rest)
  | TInt n :: TRParen :: rest => Some ([PyInt (Z.of_N n)], false, rest)
  | TInt n :: TComma :: rest =>
      '(vs, _, rest') ← parse_items rest;
      Some (PyInt (Z.of_N n) :: vs, true, rest')
  | _ => None
  end.

Definition parse_value (ts : list token) : option (pyval * list token) :=
  match ts with
  | TStr s :: rest => Some (PyStr s, rest)
  | TInt n :: rest => Some (PyInt (Z.of_N n), rest)
  | TName s :: rest =>
      if String.eqb s "True" then Some (PyBool true, rest)
      else if String.eqb s "False" then Some (PyBool false, rest)
      else None
  | TLParen :: rest =>
      '(vs, comma, rest') ← parse_items rest;
      match vs, comma with
      | [v], false => Some (v, rest')
      | _, _ => Some (PyTuple vs, rest')
      end
  | _ => None
  end.

(** The entries of a dict after its opening brace; a later entry for a key
    replaces an earlier one. *)
Fixpoint parse_entries (fuel : nat) (ts : list token) (d : gmap string pyval)
  : option (gmap string pyval) :=
  match fuel with
  | O => None
  | S fuel' =>
      match ts with
      | [TRBrace] => Some d
      | TStr k :: TColon :: rest =>
          '(v, rest') ← parse_value rest;
          match rest' with
          | [TRBrace] => Some (<[k := v]> d)
          | TComma :: rest'' => parse_entries fuel' rest'' (<[k := v]> d)
          | _ => None
          end
      | _ => None
      end
  end.

#[export] Instance npy_literal_eval : LiteralEval := fun bs =>
  match lex LIdle (map ascii_of_byte bs) with
  | Some (TLBrace :: ts) =>
      match parse_entries (S (length ts)) ts ∅ with
      | Some d => Ok d
      | None => Raise SyntaxError
      end
  | Some _ => Raise TypeError
  | None => Raise SyntaxError
  end.

(** ** Numbers and numpy arrays *)

(** The floating-point operations the exporter uses.  No law is assumed of
    them here: results that hold for every instance hold for IEEE doubles
    with numpy's evaluation order. *)
Class Arith (F : Type) := {
  fzero : F;
  fnan : F;
  finf : F;
  fadd : F -> F -> F;
  fsub : F -> F -> F;
  fmul : F -> F -> F;
  fdiv : F -> F -> F;
  fabs : F -> F;
  f32 : F -> F;          (* the cast stored into a float32 array *)
  fleb : F -> F -> bool  (* the order numpy sorts by *)
}.

(** What [np.save] stores: a dtype, a shape and the elements in C order. *)
Inductive ndarray (F : Type) : Type :=
| NdInt (shape : list nat) (data : list Z)
| NdFloat (shape : list nat) (data : list F).
Arguments NdInt {F} shape data.
Arguments NdFloat {F} shape data.

Definition nd_shape {F} (a : ndarray F) : list nat :=
  match a with NdInt sh _ | NdFloat sh _ => sh end.

(** [a.squeeze()]: the axes of length one are dropped. *)
Definition np_squeeze {F} (a : ndarray F) : ndarray F :=
  let keep := filter (fun n => n ≠ 1%nat) in
  match a with
  | NdInt sh d => NdInt (keep sh) d
  | NdFloat sh d => NdFloat (keep sh) d
  end.

Definition int1 {F} (l : list Z) : ndarray F := NdInt [length l] l.
Definition nat1 {F} (l : list nat) : ndarray F := int1 (Z.of_nat <$> l).
Definition float1 {F} (l : list F) : ndarray F := NdFloat [length l] l.
Definition nat2 {F} (n0 n1 : nat) (l : list (list nat)) : ndarray F :=
  NdInt [n0; n1] (Z.of_nat <$> concat l).
Definition float3 {F} (n0 n1 n2 : nat) (l : list (list (list F))) : ndarray F :=
  NdFloat [n0; n1; n2] (concat (@concat F <$> l)).

Section Numpy.
Context {F : Type} `{Arith F}.

(** [np.sum] along an axis adds the elements in index order. *)
Definition np_sum (l : list F) : F := foldl fadd fzero l.

Definition np_square (x : F) : F := fmul x x.

(** [a op b] for two rows: equal lengths pair up, a row of length one
    is broadcast, anything else is a ValueError. *)
Definition broadcast (op : F -> F -> F) (a b : list F) : result (list F) :=
  if decide (length a = length b) then Ok (zip_with op a b)
  else match a, b with
       | [x], _ => Ok (op x <$> b)
       | _, [y] => Ok ((fun x => op x y) <$> a)
       | _, _ => Raise ValueError
       end.

(** [np.transpose] of a matrix with [n] columns. *)
Fixpoint transpose {A} (n : nat) (m : list (list A)) : list (list A) :=
  match m with
  | [] => replicate n []
  | r :: m' => zip_with cons r (transpose n m')
  end.

Definition ncols {A} (m : list (list A)) : nat :=
  match m with r :: _ => length r | [] => 0%nat end.

(** [np.sum(m, axis=0)] for rows of length [b]. *)
Definition np_sum_axis0 (b : nat) (m : list (list F)) : list F :=
  foldl (zip_with fadd) (replicate b fzero) m.

(** [a[mask]] *)
Definition mask_select {A} (a : list A) (mask : list bool) : result (list A) :=
  if decide (length a = length mask)
  then Ok (fst <$> filter (fun p => snd p = true) (zip a mask))
  else Raise IndexError.

(** [a[mask] = vs]: the selected slots take the values in order. *)
Fixpoint mask_assign {A} (a : list A) (mask : list bool) (vs : list A) : list A :=
  match a, mask with
  | x :: a', true :: mask' =>
      match vs with
      | v :: vs' => v :: mask_assign a' mask' vs'
      | [] => x :: mask_assign a' mask' []
      end
  | x :: a', false :: mask' => x :: mask_assign a' mask' vs
  | _, _ => a
  end.

(** [np.max]: a ValueError on an empty array. *)
Definition np_max (l : list Z) : result Z :=
  match l with [] => Raise ValueError | x :: l' => Ok (foldl Z.max x l') end.
Definition np_min (l : list Z) : result Z :=
  match l with [] => Raise ValueError | x :: l' => Ok (foldl Z.min x l') end.

(** [np.unique]: the distinct values in ascending order. *)
Definition np_unique (l : list Z) : list Z := merge_sort Z.le (remove_dups l).

(** An index read from a file may be negative: numpy counts those from
    the end of the axis. *)
Definition np_index (n : nat) (i : Z) : result nat :=
  if decide (0 <= i < Z.of_nat n) then Ok (Z.to_nat i)
  else if decide (- Z.of_nat n <= i < 0) then Ok (Z.to_nat (Z.of_nat n + i))
  else Raise IndexError.
End Numpy.

(** [np.argsort] with its default [kind]: the result lists every index
    once, in an order that makes the keys non-decreasing.  The default
    kind is not a stable sort, so nothing is said about equal keys. *)
Class ArgSort (F : Type) `{Arith F} := {
  argsort : list F -> list nat;
  argsort_perm : forall l, argsort l ≡ₚ seq 0 (length l);
  argsort_sorted : forall l i j a b x y,
      (i <= j)%nat -> argsort l !! i = Some a -> argsort l !! j = Some b ->
      l !! a = Some x -> l !! b = Some y -> fleb x y = true
}.

(** ** The sorting result handed to the exporter (phylib's TemplateModel) *)

Record SparseFeatures (F : Type) := {
  sf_data : list (list (list F));   (* [n_spikes, n_local, n_components] *)
  sf_cols : list (list nat)         (* [n_groups, n_local] *)
}.
Arguments sf_data {F}.
Arguments sf_cols {F}.

Record SparseTemplates (F : Type) := {
  st_shape : nat * nat * nat;       (* data.shape *)
  st_data : list (list (list F));   (* [n_templates, n_samples, n_channels] *)
  st_cols : option (list (list Z))  (* None, or a 2-D array *)
}.
Arguments st_shape {F}.
Arguments st_data {F}.
Arguments st_cols {F}.

Record TemplateModel (F : Type) := {
  dir_path : string;
  spike_times : list F;
  spike_samples : list Z;
  amplitudes : list F;
  spike_clusters : list nat;
  n_templates : nat;
  templates_channels : list nat;
  templates_waveforms_durations : list F;
  templates_amplitudes : list F;
  channel_positions : list (list F);   (* [n_channels, 2] *)
  channel_probes : list Z;
  channel_mapping : list Z;
  sparse_features : option (SparseFeatures F);
  sparse_templates : SparseTemplates F
}.
Arguments dir_path {F}.
Arguments spike_times {F}.
Arguments spike_samples {F}.
Arguments amplitudes {F}.
Arguments spike_clusters {F}.
Arguments n_templates {F}.
Arguments templates_channels {F}.
Arguments templates_waveforms_durations {F}.
Arguments templates_amplitudes {F}.
Arguments channel_positions {F}.
Arguments channel_probes {F}.
Arguments channel_mapping {F}.
Arguments sparse_features {F}.
Arguments sparse_templates {F}.

(** ** ChannelSelector: the body of the loop of [make_template_object] *)

Definition NCH_WAVEFORMS : nat := 32.

Section ChannelSelector.
Context {F : Type} `{ArgSort F}.
Variable model : TemplateModel F.

(** [np.sum(np.abs(channel_positions - channel_positions[peak]), axis=1)] *)
Definition l1_distances (peak : nat) : result (list F) :=
  p0 ← getitem (channel_positions model) peak;
  mapR (fun p => d ← broadcast fsub p p0; mret (np_sum (fabs <$> d)))
       (channel_positions model).

(** [channel_distance[channel_probes != current_probe] += np.inf] *)
Definition add_inf_other_probes (current_probe : Z) (channel_distance : list F)
  : result (list F) :=
  let mask := (fun p => negb (Z.eqb p current_probe)) <$> channel_probes model in
  if decide (length mask = length channel_distance)
  then Ok (zip_with (fun d (b : bool) => if b then fadd d finf else d)
                    channel_distance mask)
  else Raise IndexError.

(** The keys handed to [np.argsort] for template [t]. *)
Definition channel_distance (t : nat) : result (list F) :=
  peak ← getitem (templates_channels model) t;
  current_probe ← getitem (channel_probes model) peak;
  d ← l1_distances peak;
  add_inf_other_probes current_probe d.

(** [templates_inds[t, :] = v] for a row of [ncw] slots. *)
Definition assign_row {A} (ncw : nat) (v : list A) : result (list A) :=
  if decide (length v = ncw) then Ok v
  else match v with
       | [x] => Ok (replicate ncw x)
       | _ => Raise ValueError
       end.

(** [templates_inds[t, :] = np.argsort(channel_distance)[:ncw]] *)
Definition nearest_channels (ncw t : nat) : result (list nat) :=
  d ← channel_distance t;
  assign_row ncw (take ncw (argsort d)).

(** [sparse_templates.data[t, :][:, templates_inds[t, :]]], stored into
    the float32 array [templates]. *)
Definition template_waveform (t : nat) (inds : list nat) : result (list (list F)) :=
  w ← getitem (st_data (sparse_templates model)) t;
  mapR (fun row => mapR (fun c => f32 <$> getitem row c) inds) w.

Definition template_loop (ncw : nat) (ts : list nat)
  : result (list (list nat * list (list F))) :=
  mapR (fun t => inds ← nearest_channels ncw t;
                 w ← template_waveform t inds;
                 mret (inds, w)) ts.
End ChannelSelector.

(** ** DepthEstimator: the per-spike depths of [make_depths] *)

Section DepthEstimator.
Context {F : Type} `{Arith F}.
Variable model : TemplateModel F.
Variable sf : SparseFeatures F.

(** [channel_positions[ichannels, 1]] *)
Definition ypos_of (ch : nat) : result F :=
  p ← getitem (channel_positions model) ch; getitem p 1.

(** [spikes_depths[ispi] = vals] *)
Definition assign_at (depths : list F) (ispi : list nat) (vals : list F) : list F :=
  foldl (fun d iv => <[iv.1 := iv.2]> d) depths (zip ispi vals).

(** Row by row [ypos * features]. *)
Fixpoint mul_rows (ypos features : list (list F)) : result (list (list F)) :=
  match ypos, features with
  | y :: ypos', f :: features' =>
      r ← broadcast fmul y f; rs ← mul_rows ypos' features'; mret (r :: rs)
  | _, _ => Ok []
  end.

(** One pass of the [while] loop for the spikes [ispi]. *)
Definition batch_depths (ispi : list nat) : result (list F) :=
  features ← mapR (fun i => row ← getitem (sf_data sf) i;
                            mapR (fun comps => np_square <$> getitem comps 0) row)
                  ispi;
  clusters ← mapR (getitem (spike_clusters model)) ispi;
  ichannels ← mapR (getitem (sf_cols sf)) clusters;
  ypos ← mapR (mapR ypos_of) ichannels;
  prod ← mul_rows ypos features;
  let sums := np_sum <$> features in
  let quot := (fun r => zip_with fdiv r sums) <$> transpose (ncols prod) prod in
  mret (np_sum_axis0 (length ispi) quot).

Definition nspi : nat := length (spike_times model).

(** The [while True] loop: [c] is the first spike of the batch. *)
Equations? depth_loop (nbatch : positive) (c : nat) (spikes_depths : list F)
  : result (list F) by wf (nspi - c)%nat lt :=
  depth_loop nbatch c spikes_depths
    with batch_depths (seq c (Nat.min (c + Pos.to_nat nbatch) nspi - c)) => {
    | Raise e => Raise e
    | Ok vals =>
        let spikes_depths' :=
          assign_at spikes_depths
                    (seq c (Nat.min (c + Pos.to_nat nbatch) nspi - c)) vals in
        if decide (nspi <= c + Pos.to_nat nbatch)%nat
        then Ok spikes_depths'
        else depth_loop nbatch (c + Pos.to_nat nbatch) spikes_depths' }.
Proof. lia. Qed.

(** The else-branch of [make_depths] with batch size [nbatch]. *)
Definition batched_depths (nbatch : positive) : result (list F) :=
  depth_loop nbatch 0 (replicate nspi fzero).
End DepthEstimator.

(** ** SparseProjector: [from_sparse] *)

(** The data of one row, of shape [..., n_local]: the innermost axis is
    the local channel slot. *)
Inductive tensor (A : Type) : Type :=
| TVec (v : list A)
| TStack (ts : list (tensor A)).
Arguments TVec {A} v.
Arguments TStack {A} ts.

Section SparseProjector.
Context {A : Type} (zero : A).

(** The innermost vector at the position [p] of the leading axes. *)
Fixpoint tget (t : tensor A) (p : list nat) : option (list A) :=
  match t, p with
  | TVec v, [] => Some v
  | TStack ts, i :: p' => t' ← ts !! i; tget t' p'
  | _, _ => None
  end.

Fixpoint tmap (f : list A -> list A) (t : tensor A) : tensor A :=
  match t with
  | TVec v => TVec (f v)
  | TStack ts => TStack (map (tmap f) ts)
  end.

(** The local slot of a global channel id in one row of [cols]. *)
Definition local_index (cols_r : list Z) (id : Z) : option nat :=
  fst <$> list_find (fun c => c = id) cols_r.

Definition project_vec (cols_r channel_ids : list Z) (v : list A) : list A :=
  (fun id => match local_index cols_r id with
             | Some s => default zero (v !! s)
             | None => zero
             end) <$> channel_ids.

(** Modelled from the spec: [from_sparse] of phylib/io/model.py, of which
    only the test (phylib/io/tests/test_model.py) is among the sources.
    Section 4.3: the output has the shape [rows, ..., m] and
    [out[r,...,j] = data[r,...,local index of channel_ids[j] in cols[r]]]
    if present, else 0; a duplicate in [channel_ids] is a
    NotSupportedError, the [NotImplementedError] the test expects. *)
Definition from_sparse (data : list (tensor A)) (cols : list (list Z))
           (channel_ids : list Z) : result (list (tensor A)) :=
  if decide (NoDup channel_ids)
  then Ok (zip_with (fun row cols_r => tmap (project_vec cols_r channel_ids) row)
                    data cols)
  else Raise NotImplementedError.
End SparseProjector.

(** ** The file system and the exporter's effects *)

(** A file is named by its directory and its name; directories are told
    apart after [Path.resolve]. *)
Class Resolve := resolve : string -> string.

Definition path : Type := string * string.

Definition key `{Resolve} (p : path) : string * string := (resolve p.1, p.2).

Inductive event : Type :=
| EMkdir (d : string)
| EWrite (p : string * string)
| ECopy (src dst : string * string)
| ERename (src dst : string * string)
| EUnlink (p : string * string).

(** The array-file primitives ([np.save], [np.load]), the bytes [open]
    reads and the text [fid.write] leaves are those of the platform. *)
Class NpyIO (F content : Type) := {
  np_save_content : ndarray F -> content;
  np_load_content : content -> result (ndarray F);
  read_bytes : content -> list byte;
  text_content : string -> content
}.

(** [uuid.uuid4()]: the n-th identifier drawn. *)
Class Uuid := uuid4 : nat -> string.

Record world (content : Type) := {
  dirs : gset string;
  files : gmap (string * string) content;
  drawn : nat;            (* identifiers drawn so far *)
  trace : list event      (* mutations of the file system, latest first *)
}.
Arguments dirs {content}.
Arguments files {content}.
Arguments drawn {content}.
Arguments trace {content}.

Definition M (content A : Type) : Type := world content -> world content * result A.

#[export] Instance M_ret {content} : MRet (M content) := fun A a w => (w, Ok a).
#[export] Instance M_bind {content} : MBind (M content) := fun A B f m w =>
  match m w with
  | (w', Ok a) => f a w'
  | (w', Raise e) => (w', Raise e)
  end.

Definition raise {content A} (e : exn) : M content A := fun w => (w, Raise e).
Definition lift {content A} (r : result A) : M content A := fun w => (w, r).

Section FileSystem.
Context {F content : Type} `{NpyIO F content} `{Resolve} `{Uuid}.

(** [Path(p).exists()] for a file, [d.exists()] for a directory. *)
Definition file_exists (p : path) : M content bool :=
  fun w => (w, Ok (bool_decide (is_Some (files w !! key p)))).
Definition dir_exists (d : string) : M content bool :=
  fun w => (w, Ok (bool_decide (resolve d ∈ dirs w))).

Definition mkdir (d : string) : M content unit :=
  fun w => ({| dirs := {[resolve d]} ∪ dirs w; files := files w;
               drawn := drawn w; trace := EMkdir (resolve d) :: trace w |}, Ok tt).

(** [ensure_dir_exists] of phylib.utils._misc *)
Definition ensure_dir_exists (d : string) : M content unit :=
  b ← dir_exists d; if b : bool then mret tt else mkdir d.

Definition read_file (p : path) : M content content :=
  fun w => match files w !! key p with
           | Some c => (w, Ok c)
           | None => (w, Raise FileNotFoundError)
           end.

(** Creating or replacing a file needs its directory. *)
Definition write_file (p : path) (c : content) : M content unit :=
  fun w => if decide (resolve p.1 ∈ dirs w)
           then ({| dirs := dirs w; files := <[key p := c]> (files w);
                    drawn := drawn w; trace := EWrite (key p) :: trace w |}, Ok tt)
           else (w, Raise FileNotFoundError).

(** [shutil.copy(src, dst)]: a source that exists is not copied onto
    itself. *)
Definition shutil_copy (src dst : path) : M content unit :=
  fun w => match files w !! key src with
           | Some c =>
               if decide (key src = key dst) then (w, Raise SameFileError)
               else if decide (resolve dst.1 ∈ dirs w)
               then ({| dirs := dirs w; files := <[key dst := c]> (files w);
                        drawn := drawn w;
                        trace := ECopy (key src) (key dst) :: trace w |}, Ok tt)
               else (w, Raise FileNotFoundError)
           | None => (w, Raise FileNotFoundError)
           end.

(** [p.unlink()] *)
Definition unlink (p : path) : M content unit :=
  fun w => match files w !! key p with
           | Some _ =>
               ({| dirs := dirs w; files := delete (key p) (files w);
                   drawn := drawn w; trace := EUnlink (key p) :: trace w |}, Ok tt)
           | None => (w, Raise FileNotFoundError)
           end.

(** [src.rename(dst)]: an existing [dst] is replaced. *)
Definition rename (src dst : path) : M content unit :=
  fun w => match files w !! key src with
           | Some c =>
               ({| dirs := dirs w;
                   files := <[key dst := c]> (delete (key src) (files w));
                   drawn := drawn w;
                   trace := ERename (key src) (key dst) :: trace w |}, Ok tt)
           | None => (w, Raise FileNotFoundError)
           end.

(** The names of the files of a directory. *)
Definition listdir (d : string) : M content (list string) :=
  fun w => (w, Ok (snd <$> filter (fun k => k.1 = resolve d)
                                  (elements (dom (files w))))).

Definition draw_uuid : M content string :=
  fun w => ({| dirs := dirs w; files := files w;
               drawn := S (drawn w); trace := trace w |}, Ok (uuid4 (drawn w))).

(** [[str(uuid.uuid4()) for _ in range(n)]] *)
Fixpoint draw_uuids (n : nat) : M content (list string) :=
  match n with
  | O => mret []
  | S n' => u ← draw_uuid; us ← draw_uuids n'; mret (u :: us)
  end.

(** [np.load(p)] *)
Definition np_load (p : path) : M content (ndarray F) :=
  c ← read_file p; lift (np_load_content c).

Definition has_suffix (suffix s : string) : bool :=
  bool_decide (String.length suffix <= String.length s)%nat &&
  String.eqb (String.substring (String.length s - String.length suffix)
                               (String.length suffix) s) suffix.

(** [np.save(p, a)]: the name gets the extension [.npy] unless it has it. *)
Definition np_save (p : path) (a : ndarray F) : M content unit :=
  let name := if has_suffix ".npy" p.2 then p.2 else p.2 +:+ ".npy" in
  write_file (p.1, name) (np_save_content a).

(** [for x in xs: body x] *)
Fixpoint for_each {A} (xs : list A) (body : A -> M content unit) : M content unit :=
  match xs with
  | [] => mret tt
  | x :: xs' => body x;; for_each xs' body
  end.
End FileSystem.

(** ** File names *)

(** [name.rfind('.')] *)
Fixpoint rfind_dot (s : string) (i : nat) (last : option nat) : option nat :=
  match s with
  | EmptyString => last
  | String c s' => rfind_dot s' (S i) (if Ascii.eqb c "." then Some i else last)
  end.

(** [PurePath.suffix]: from the last dot on, unless the name starts or
    ends there. *)
Definition suffix (name : string) : string :=
  match rfind_dot name 0 None with
  | Some i =>
      if bool_decide (0 < i < String.length name - 1)%nat
      then String.substring i (String.length name - i) name
      else ""
  | None => ""
  end.

Definition contains_sep (s : string) : bool :=
  existsb (Ascii.eqb "/") (list_ascii_of_string s).

(** [PurePath.with_suffix] *)
Definition with_suffix (name new_suffix : string) : result string :=
  if contains_sep new_suffix then Raise ValueError
  else if negb (String.prefix "." new_suffix) || String.eqb new_suffix "."
  then Raise ValueError
  else if String.eqb name "" then Raise ValueError
  else
    let old := suffix name in
    Ok (String.substring 0 (String.length name - String.length old) name
          +:+ new_suffix).

Definition newline : string := String (ascii_of_nat 10) EmptyString.

(** ['\n'.join(lines)] *)
Fixpoint join_lines (lines : list string) : string :=
  match lines with
  | [] => ""
  | [l] => l
  | l :: ls => l +:+ newline +:+ join_lines ls
  end.

(** ** EphysAlfCreator *)

(** file_in, file_out, squeeze *)
Definition _FILE_RENAMES : list (string * string * option bool) := [
  ("params.py", "params.py", None);
  ("cluster_metrics.csv", "clusters.metrics.csv", None);
  ("spike_clusters.npy", "spikes.clusters.npy", Some true);
  ("spike_templates.npy", "spikes.templates.npy", Some true);
  ("channel_positions.npy", "channels.localCoordinates.npy", Some false);
  ("channel_probe.npy", "channels.probes.npy", Some true);
  ("cluster_probes.npy", "clusters.probes.npy", Some true);
  ("cluster_shanks.npy", "clusters.shanks.npy", Some true)
].

Definition FILE_DELETES : list string := ["temp_wh.dat"].

(** Modelled from the spec: [_unique] of phylib/io/array.py, which is not
    among the sources.  Section 4.6 speaks of the observed cluster ids and
    of their least and greatest: the distinct ids in ascending order. *)
Definition _unique (x : list nat) : list nat := merge_sort Nat.le (remove_dups x).

Record EphysAlfCreator (F : Type) := {
  model : TemplateModel F;
  out_path : string;
  label : string;
  ampfactor : F
}.
Arguments model {F}.
Arguments out_path {F}.
Arguments label {F}.
Arguments ampfactor {F}.

Definition cluster_ids {F} (self : EphysAlfCreator F) : list nat :=
  _unique (spike_clusters (model self)).

(** The truth value Python takes of [sparse_templates.cols]: [None] is
    false; an array with no element is false, one with a single element has
    the truth of that element, and a larger one refuses with ValueError. *)
Definition cols_truth (cols : option (list (list Z))) : result bool :=
  match cols with
  | None => Ok false
  | Some a =>
      match concat a with
      | [] => Ok false
      | [x] => Ok (negb (Z.eqb x 0))
      | _ => Raise ValueError
      end
  end.

Section Exporter.
Context {F content : Type} `{ArgSort F} `{NpyIO F content}
        `{Resolve} `{Uuid} `{LiteralEval}.
Abbreviation M := (M content).

Definition _create_if_possible (path new_path : path) (force : bool) : M bool :=
  e ← file_exists path;
  if negb e then mret false
  else
    e' ← file_exists new_path;
    if e' && negb force then mret false
    else ensure_dir_exists new_path.1;; mret true.

Definition _copy_if_possible (path new_path : path) (force : bool) : M bool :=
  ok ← _create_if_possible path new_path force;
  if negb ok then mret false
  else shutil_copy path new_path;; mret true.

(** [len(v)] and [v[-1] == 1] for the value under ['shape']. *)
Definition py_len (v : pyval) : result nat :=
  match v with
  | PyTuple l => Ok (length l)
  | PyStr s => Ok (String.length s)
  | PyBytes b => Ok (length b)
  | PyInt _ | PyBool _ => Raise TypeError
  end.
Definition last_is_one (v : pyval) : bool :=
  match v with
  | PyTuple l =>
      match last l with
      | Some (PyInt 1) | Some (PyBool true) => true
      | _ => false
      end
  | _ => false
  end.

Definition is_true (squeeze : option bool) : bool :=
  match squeeze with Some true => true | _ => false end.

Definition copy_files (self : EphysAlfCreator F) (force : bool) : M unit :=
  for_each _FILE_RENAMES (fun '(fn0, fn1, squeeze) =>
    let f0 := (dir_path (model self), fn0) in
    let f1 := (out_path self, fn1) in
    _copy_if_possible f0 f1 force;;
    e ← file_exists f0;
    if e && is_true squeeze && String.eqb (suffix fn0) ".npy" then
      c ← read_file f0;
      h ← lift (_read_npy_header (read_bytes c));
      shape ← lift (match h !! "shape" with
                    | Some v => Ok v
                    | None => Raise KeyError
                    end);
      n ← lift (py_len shape);
      if bool_decide (n = 2%nat) && last_is_one shape then
        d ← np_load f0;
        np_save f1 (np_squeeze d)
      else mret tt
    else mret tt).

Definition rm_files (self : EphysAlfCreator F) : M unit :=
  for_each FILE_DELETES (fun fn0 =>
    let fn := (dir_path (model self), fn0) in
    e ← file_exists fn;
    if e : bool then unlink fn else mret tt).

Definition _save_npy (self : EphysAlfCreator F) (filename : string)
           (arr : ndarray F) : M unit :=
  np_save (out_path self, filename) arr.

Definition make_spike_times_amplitudes (self : EphysAlfCreator F) : M unit :=
  _save_npy self "spikes.times.npy" (float1 (spike_times (model self)));;
  _save_npy self "spikes.samples.npy" (int1 (spike_samples (model self)));;
  _save_npy self "spikes.amps.npy"
    (float1 ((fun x => fmul x (ampfactor self)) <$> amplitudes (model self))).

(** [camps[cluster_ids - min] = templates_amplitudes] *)
Definition assign_camps (camps : list F) (idx : list nat) (vals : list F)
  : result (list F) :=
  if decide (length vals = length idx)
  then Ok (assign_at camps idx vals)
  else match vals with
       | [v] => Ok (assign_at camps idx (replicate (length idx) v))
       | _ => Raise ValueError
       end.

Definition make_cluster_objects (self : EphysAlfCreator F) : M unit :=
  let peak_channel_path := (dir_path (model self), "clusters.channels.npy") in
  e ← file_exists peak_channel_path;
  (if negb e
   then _save_npy self peak_channel_path.2 (nat1 (templates_channels (model self)))
   else mret tt);;
  let waveform_duration_path := (dir_path (model self), "clusters.peakToTrough.npy") in
  e ← file_exists waveform_duration_path;
  (if negb e
   then _save_npy self waveform_duration_path.2
          (float1 (templates_waveforms_durations (model self)))
   else mret tt);;
  let ids := Z.of_nat <$> cluster_ids self in
  hi ← lift (np_max ids);
  lo ← lift (np_min ids);
  let camps := replicate (Z.to_nat (hi - lo + 1)) (fmul fzero fnan) in
  camps ← lift (assign_camps camps ((fun i => Z.to_nat (i - lo)) <$> ids)
                             (templates_amplitudes (model self)));
  let amps_path := (dir_path (model self), "clusters.amps.npy") in
  _save_npy self amps_path.2
    (float1 ((fun x => fmul x (ampfactor self)) <$> camps));;
  uuids ← draw_uuids (length camps);
  write_file (out_path self, "clusters.uuids.csv")
             (text_content (join_lines ("uuids" :: uuids))).

(** The loop of [make_channel_objects] over the probes. *)
Fixpoint rawInd_loop (probes mapping : list Z) (todo : list Z)
         (rawInd : list Z) (channel_offset : Z) : result (list Z) :=
  match todo with
  | [] => Ok rawInd
  | probe :: todo' =>
      let ind := (fun p => Z.eqb p probe) <$> probes in
      sel ← mask_select mapping ind;
      let rawInd := mask_assign rawInd ind ((fun x => x - channel_offset) <$> sel) in
      top ← np_max sel;
      rawInd_loop probes mapping todo' rawInd (channel_offset + top)
  end.

Definition make_channel_objects (self : EphysAlfCreator F) : M unit :=
  let rawInd_path := (dir_path (model self), "channels.rawInd.npy") in
  let probes := channel_probes (model self) in
  rawInd ← lift (rawInd_loop probes (channel_mapping (model self))
                             (np_unique probes)
                             (replicate (length probes) 0) 0);
  _save_npy self rawInd_path.2 (int1 rawInd).

Definition make_depths (self : EphysAlfCreator F) : M unit :=
  let channel_positions := channel_positions (model self) in
  let spike_clusters := spike_clusters (model self) in
  a ← np_load (out_path self, "clusters.channels.npy");
  cluster_channels ← lift (match a with
                           | NdInt [_] d => Ok d
                           | NdFloat [_] _ => Raise IndexError
                           | _ => Raise AssertionError
                           end);
  clusters_depths ← lift (mapR (fun i => ch ← np_index (length channel_positions) i;
                                        ypos_of (model self) ch)
                               cluster_channels);
  spikes_depths ← lift (match sparse_features (model self) with
                        | None => mapR (getitem clusters_depths) spike_clusters
                        | Some sf => batched_depths (model self) sf 50000
                        end);
  _save_npy self "spikes.depths.npy" (float1 spikes_depths);;
  _save_npy self "clusters.depths.npy" (float1 clusters_depths).

Definition make_template_object (self : EphysAlfCreator F) : M unit :=
  b ← lift (cols_truth (st_cols (sparse_templates (model self))));
  if b : bool then raise NotImplementedError
  else
    let '(n_templ, n_wavsamps, nchall) := st_shape (sparse_templates (model self)) in
    let ncw := Nat.min NCH_WAVEFORMS nchall in
    (if decide (n_templ = n_templates (model self))
     then mret tt else raise AssertionError);;
    rows ← lift (template_loop (model self) ncw (seq 0 n_templ));
    let rows : list (list nat * list (list F)) := rows in
    let templates_inds := nat2 n_templ ncw (fst <$> rows) in
    let templates :=
      float3 n_templ n_wavsamps ncw
        ((fun w : list (list F) =>
            (fun r : list F => (fun x => f32 (fmul x (ampfactor self))) <$> r) <$> w)
           <$> (snd <$> rows)) in
    np_save (out_path self, "templates.waveforms") templates;;
    np_save (out_path self, "templates.waveformsChannels") templates_inds;;
    np_save (out_path self, "clusters.waveforms") templates;;
    np_save (out_path self, "clusters.waveformsChannels") templates_inds.

Definition glob_patterns : list string :=
  ["channels."; "clusters."; "spikes."; "templates."].

(** [out_path.glob(prefix + '*')] lists the directory once. *)
Definition rename_with_label (self : EphysAlfCreator F) : M unit :=
  if String.eqb (label self) "" then mret tt
  else
    for_each glob_patterns (fun pattern =>
      names ← listdir (out_path self);
      for_each (filter (fun f => String.prefix pattern f = true) names) (fun f =>
        new ← lift (with_suffix f ("." +:+ label self +:+ suffix f));
        rename (out_path self, f) (out_path self, new))).

(** [convert]: the value is the path handed to [load_model], if any. *)
Definition convert (m : TemplateModel F) (out_path : string) (force : bool)
           (label : string) (ampfactor : F) : M (option path) :=
  let self := {| model := m; out_path := out_path; label := label;
                 ampfactor := ampfactor |} in
  if decide (resolve out_path = resolve (dir_path m))
  then raise IOError
  else
    e ← dir_exists out_path;
    (if negb e then mkdir out_path else mret tt);;
    copy_files self force;;
    make_spike_times_amplitudes self;;
    make_cluster_objects self;;
    make_channel_objects self;;
    make_depths self;;
    make_template_object self;;
    rm_files self;;
    rename_with_label self;;
    let params_path := (out_path, "params.py") in
    e ← file_exists params_path;
    if e : bool then mret (Some params_path) else mret None.
End Exporter.

(** ** An exact instance to run the exporter on

    Integers extended with an infinity and a not-a-number, ordered the way
    numpy sorts doubles (NaN last); files that remember the array they
    hold, with the header numpy would write for it. *)

Inductive ext : Type := Num (z : Z) | Inf | NaN.

Definition ext_add (a b : ext) : ext :=
  match a, b with
  | NaN, _ | _, NaN => NaN
  | Inf, _ | _, Inf => Inf
  | Num x, Num y => Num (x + y)
  end.
Definition ext_sub (a b : ext) : ext :=
  match a, b with
  | Num x, Num y => Num (x - y)
  | Inf, Num _ => Inf
  | _, _ => NaN
  end.
Definition ext_mul (a b : ext) : ext :=
  match a, b with
  | Num x, Num y => Num (x * y)
  | NaN, _ | _, NaN => NaN
  | Inf, Num x | Num x, Inf => if Z.eqb x 0 then NaN else Inf
  | Inf, Inf => Inf
  end.
Definition ext_div (a b : ext) : ext :=
  match a, b with
  | Num x, Num y => if Z.eqb y 0 then NaN else Num (x / y)
  | Num _, Inf => Num 0
  | Inf, Num _ => Inf
  | _, _ => NaN
  end.
Definition ext_abs (a : ext) : ext :=
  match a with Num x => Num (Z.abs x) | _ => a end.
Definition ext_leb (a b : ext) : bool :=
  match a, b with
  | _, NaN => true
  | NaN, _ => false
  | _, Inf => true
  | Inf, _ => false
  | Num x, Num y => Z.leb x y
  end.

#[export] Instance ext_arith : Arith ext := {|
  fzero := Num 0; fnan := NaN; finf := Inf;
  fadd := ext_add; fsub := ext_sub; fmul := ext_mul; fdiv := ext_div;
  fabs := ext_abs; f32 := fun x => x; fleb := ext_leb
|}.

(** A stable argsort: index [i] goes in front of the first later index
    whose key is not smaller. *)
Section StableArgsort.
Context {F : Type} `{Arith F}.
Variable l : list F.

Definition key_leb (a b : nat) : bool :=
  match l !! a, l !! b with
  | Some x, Some y => fleb x y
  | _, _ => true
  end.

Fixpoint insert_index (i : nat) (sorted : list nat) : list nat :=
  match sorted with
  | [] => [i]
  | j :: rest =>
      if key_leb i j then i :: j :: rest else j :: insert_index i rest
  end.

Definition stable_argsort : list nat :=
  foldr insert_index [] (seq 0 (length l)).
End StableArgsort.

Inductive file : Type :=
| FNpy (a : ndarray ext)
| FText (s : string)
| FRaw (b : list byte).

Definition bytes_of_string (s : string) : list byte := list_byte_of_string s.

(** The tuple literal of a shape: [()], [(3,)], [(3, 1)]. *)
Definition shape_literal (sh : list nat) : string :=
  match sh with
  | [] => "()"
  | [n] => "(" +:+ pretty n +:+ ",)"
  | n :: sh' => "(" +:+ pretty n +:+ fold_right (fun k s => ", " +:+ pretty k +:+ s) ")" sh'
  end.

Definition header_literal (a : ndarray ext) : string :=
  "{'descr': '" +:+ (match a with NdInt _ _ => "<i8" | NdFloat _ _ => "<f8" end)
    +:+ "', 'fortran_order': False, 'shape': " +:+ shape_literal (nd_shape a)
    +:+ ", }" +:+ newline.

Definition magic : list byte := x93 :: bytes_of_string "NUMPY".

(** The header of a version 1.0 [.npy] file; the payload is left out, as
    nothing reads it as bytes. *)
Definition npy_header (a : ndarray ext) : list byte :=
  let lit := bytes_of_string (header_literal a) in
  let n := N.of_nat (length lit) in
  magic ++ [x01; x00]
    ++ [default x00 (Byte.of_N (n mod 256)); default x00 (Byte.of_N (n / 256))]
    ++ lit.

#[export] Instance file_io : NpyIO ext file := {|
  np_save_content := FNpy;
  np_load_content := fun c => match c with FNpy a => Ok a | _ => Raise ValueError end;
  read_bytes := fun c => match c with
                         | FNpy a => npy_header a
                         | FText s => bytes_of_string s
                         | FRaw b => b
                         end;
  text_content := FText
|}.

#[export] Instance id_resolve : Resolve := fun d => d.
#[export] Instance counter_uuid : Uuid := fun n => "uuid-" +:+ pretty n.

(** * Properties *)

(** ** Fallible computations *)

Lemma bind_Ok {A B} (f : A -> result B) (r : result A) (b : B) :
  r ≫= f = Ok b <-> exists a, r = Ok a /\ f a = Ok b.
Proof.
  destruct r as [a|e]; cbn; split.
  - eauto.
  - intros (a' & [= <-] & Hf). exact Hf.
  - discriminate.
  - intros (a' & [=] & _).
Qed.

Lemma fmap_Ok {A B} (f : A -> B) (r : result A) (b : B) :
  f <$> r = Ok b <-> exists a, r = Ok a /\ b = f a.
Proof.
  destruct r as [a|e]; cbn; split.
  - intros [= <-]. eauto.
  - intros (a' & [= <-] & ->). reflexivity.
  - discriminate.
  - intros (a' & [=] & _).
Qed.

Lemma getitem_Ok {A} (l : list A) (i : nat) (a : A) :
  getitem l i = Ok a <-> l !! i = Some a.
Proof. unfold getitem. destruct (l !! i); split; congruence. Qed.

Lemma mapR_Ok {A B} (f : A -> result B) (xs : list A) (ys : list B) :
  mapR f xs = Ok ys <-> Forall2 (fun x y => f x = Ok y) xs ys.
Proof.
  revert ys. induction xs as [|x xs IH]; intros ys; cbn.
  - split.
    + intros [= <-]. constructor.
    + intros Hf. inversion Hf. reflexivity.
  - rewrite bind_Ok. split.
    + intros (y & Hy & Hrest). apply bind_Ok in Hrest as (ys' & Hys & [= <-]).
      constructor; [exact Hy | by apply IH].
    + intros Hf. inversion Hf as [|? y ? ys' Hy Hys]; subst.
      exists y. split; [exact Hy|]. apply bind_Ok. exists ys'.
      split; [by apply IH | reflexivity].
Qed.

Lemma mapR_Raise {A B} (f : A -> result B) (xs : list A) (e : exn) :
  mapR f xs = Raise e -> exists x e', x ∈ xs /\ f x = Raise e'.
Proof.
  induction xs as [|x xs IH]; cbn; [discriminate|].
  destruct (f x) as [y|e'] eqn:Hx; cbn.
  - destruct (mapR f xs) as [ys|e''] eqn:Hxs; cbn; [discriminate|].
    intros [= <-]. destruct (IH eq_refl) as (x' & e3 & Hin & Hf).
    exists x', e3. split; [by right | exact Hf].
  - intros _. exists x, e'. split; [by left | exact Hx].
Qed.

(** ** HeaderReader *)

Definition bad_signature_file : list byte :=
  bytes_of_string "BADSIG" ++ [x09; x09]
    ++ skipn 8 (npy_header (NdInt [3%nat; 1%nat] [1; 2; 3])).

(** The reader does not look at the signature or the version: a file that
    opens with the bytes [BADSIG] and the version 9.9 yields a header
    record, with those bytes in it. *)
Lemma read_header_accepts_bad_signature :
  exists h,
    _read_npy_header bad_signature_file = Ok h /\
    h !! "magic_string" = Some (PyBytes (bytes_of_string "BADSIG")) /\
    h !! "version" = Some (PyBytes [x09; x09]) /\
    h !! "shape" = Some (PyTuple [PyInt 3; PyInt 1]).
Proof.
  destruct (_read_npy_header bad_signature_file) as [h|e] eqn:E.
  - exists h. split; [reflexivity|].
    assert (Hh : Ok h = _read_npy_header bad_signature_file)
      by (symmetry; exact E).
    clear E. vm_compute in Hh. injection Hh as ->. vm_compute. auto.
  - exfalso. vm_compute in E. discriminate E.
Qed.

(** C6 (as the code has it): whatever the six signature bytes and the two
    version bytes are, [_read_npy_header] stores them under [magic_string]
    and [version] and returns the dict read from the literal that follows
    the two length bytes; it fails exactly when reading that literal
    fails, with that error. *)
Theorem read_header_ignores_signature `{LiteralEval}
    (sig ver rest : list byte) :
  length sig = 6%nat -> length ver = 2%nat ->
  let len := int_from_bytes_little (take 2 rest) in
  _read_npy_header (sig ++ ver ++ rest) =
    match literal_eval (take (Z.to_nat len) (drop 2 rest)) with
    | Ok h =>
        Ok (h ∪ <["len" := PyInt len]>
                  (<["version" := PyBytes ver]>
                     (<["magic_string" := PyBytes sig]> ∅)))
    | Raise e => Raise e
    end.
Proof.
  intros Hsig Hver len. unfold _read_npy_header.
  rewrite (take_app_length' sig) by (symmetry; exact Hsig).
  rewrite (drop_app_length' sig) by (symmetry; exact Hsig).
  rewrite (take_app_length' ver) by (symmetry; exact Hver).
  rewrite (drop_app_length' ver) by (symmetry; exact Hver).
  fold len. destruct (literal_eval _); reflexivity.
Qed.

Lemma read_header_ignores_signature_witness :
  length (bytes_of_string "BADSIG") = 6%nat /\ length [x09; x09] = 2%nat /\
  is_ok (_read_npy_header bad_signature_file) = true.
Proof.
  split; [reflexivity|]. split; [reflexivity|].
  unfold bad_signature_file.
  rewrite (@read_header_ignores_signature npy_literal_eval
             (bytes_of_string "BADSIG") [x09; x09] _ eq_refl eq_refl).
  vm_compute. reflexivity.
Defined.


(** ** SparseProjector *)

Section SparseProjectorFacts.
Context {A : Type} (zero : A).

Lemma tensor_rect' (P : tensor A -> Prop)
    (Hvec : forall v, P (TVec v))
    (Hstack : forall ts, Forall P ts -> P (TStack ts)) :
  forall t, P t.
Proof.
  fix IH 1. intros [v|ts]; [apply Hvec | apply Hstack].
  induction ts as [|t ts IHts]; constructor; [apply IH | exact IHts].
Qed.

Lemma tget_tmap (f : list A -> list A) (t : tensor A) (p : list nat) :
  tget (tmap f t) p = f <$> tget t p.
Proof.
  revert p. induction t as [v|ts IH] using tensor_rect'; intros p.
  - destruct p; reflexivity.
  - destruct p as [|i p]; [reflexivity|]. cbn.
    rewrite list_lookup_fmap. destruct (ts !! i) as [t|] eqn:Hi; [|reflexivity].
    cbn. rewrite Forall_lookup in IH. exact (IH i t Hi p).
Qed.

Lemma local_index_present (cols_r : list Z) (id : Z) (s : nat) :
  NoDup cols_r -> cols_r !! s = Some id -> local_index cols_r id = Some s.
Proof.
  intros Hnd Hs. unfold local_index.
  destruct (list_find (fun c => c = id) cols_r) as [[s' c]|] eqn:Hf; cbn.
  - apply list_find_Some in Hf as (Hs' & -> & _).
    f_equal. exact (NoDup_lookup _ _ _ _ Hnd Hs' Hs).
  - apply list_find_None in Hf. rewrite Forall_lookup in Hf.
    exfalso. exact (Hf s id Hs eq_refl).
Qed.

Lemma local_index_absent (cols_r : list Z) (id : Z) :
  id ∉ cols_r -> local_index cols_r id = None.
Proof.
  intros Hni. unfold local_index.
  destruct (list_find (fun c => c = id) cols_r) as [[s' c]|] eqn:Hf; [|reflexivity].
  apply list_find_Some in Hf as (Hs' & -> & _).
  exfalso. apply Hni. by eapply list_elem_of_lookup_2.
Qed.

Lemma project_vec_lookup (cols_r ids : list Z) (v : list A) (j : nat) (id : Z) :
  ids !! j = Some id ->
  project_vec zero cols_r ids v !! j =
    Some (match local_index cols_r id with
          | Some s => default zero (v !! s)
          | None => zero
          end).
Proof. intros Hj. unfold project_vec. by rewrite list_lookup_fmap, Hj. Qed.

(** C4: for duplicate-free requested ids, [from_sparse] returns one output
    row per input row, with the leading axes of the input and a last axis
    of length m; the entry at (r, ..., j) is the data value at the local
    slot where [channel_ids[j]] stands in [cols[r]], and 0 when that id is
    not in [cols[r]]. *)
Theorem from_sparse_spec (data : list (tensor A)) (cols : list (list Z))
    (channel_ids : list Z) :
  NoDup channel_ids -> length cols = length data ->
  exists out,
    from_sparse zero data cols channel_ids = Ok out /\
    length out = length data /\
    forall r row cols_r,
      data !! r = Some row -> cols !! r = Some cols_r ->
      exists orow,
        out !! r = Some orow /\
        forall p,
          match tget row p with
          | None => tget orow p = None
          | Some v =>
              exists w,
                tget orow p = Some w /\ length w = length channel_ids /\
                forall j id, channel_ids !! j = Some id ->
                  (forall s x, NoDup cols_r -> cols_r !! s = Some id ->
                               v !! s = Some x -> w !! j = Some x) /\
                  (id ∉ cols_r -> w !! j = Some zero)
          end.
Proof.
  intros Hnd Hlen. unfold from_sparse.
  destruct (decide (NoDup channel_ids)) as [_|Hn]; [|contradiction].
  eexists. split; [reflexivity|]. split.
  { rewrite length_zip_with. lia. }
  intros r row cols_r Hrow Hcols.
  exists (tmap (project_vec zero cols_r channel_ids) row). split.
  { rewrite lookup_zip_with, Hrow. cbn. by rewrite Hcols. }
  intros p. rewrite tget_tmap. destruct (tget row p) as [v|]; [|reflexivity].
  eexists. split; [reflexivity|]. split.
  { unfold project_vec. by rewrite length_fmap. }
  intros j id Hj. rewrite (project_vec_lookup _ _ _ _ _ Hj). split.
  - intros s x Hndc Hs Hx. rewrite (local_index_present _ _ _ Hndc Hs).
    by rewrite Hx.
  - intros Hni. by rewrite (local_index_absent _ _ Hni).
Qed.
End SparseProjectorFacts.

(** The arrays of [test_from_sparse]. *)
Definition test_data : list (tensor Z) := [TVec [0; 1; 2]; TVec [3; 4; 5]].
Definition test_cols : list (list Z) := [[20; 23; 21]; [21; 19; 22]].

Lemma NoDup_19_21 : NoDup [19; 21].
Proof.
  apply NoDup_cons_2.
  - intros Hin. apply list_elem_of_singleton in Hin. discriminate Hin.
  - apply NoDup_singleton.
Defined.

Lemma from_sparse_spec_witness :
  NoDup [19; 21] /\ length test_cols = length test_data /\
  exists out, from_sparse 0 test_data test_cols [19; 21] = Ok out /\
              length out = length test_data.
Proof.
  split; [exact NoDup_19_21|]. split; [reflexivity|].
  destruct (from_sparse_spec 0 test_data test_cols [19; 21] NoDup_19_21 eq_refl)
    as (out & Hout & Hlen & _).
  exists out. split; [exact Hout | exact Hlen].
Defined.

Example test_from_sparse_0 :
  from_sparse 0 test_data test_cols [0] = Ok [TVec [0]; TVec [0]].
Proof. vm_compute. reflexivity. Qed.

Example test_from_sparse_19 :
  from_sparse 0 test_data test_cols [19] = Ok [TVec [0]; TVec [4]].
Proof. vm_compute. reflexivity. Qed.

Example test_from_sparse_20 :
  from_sparse 0 test_data test_cols [20] = Ok [TVec [0]; TVec [0]].
Proof. vm_compute. reflexivity. Qed.

Example test_from_sparse_21 :
  from_sparse 0 test_data test_cols [21] = Ok [TVec [2]; TVec [3]].
Proof. vm_compute. reflexivity. Qed.

Example test_from_sparse_19_21 :
  from_sparse 0 test_data test_cols [19; 21] = Ok [TVec [0; 2]; TVec [4; 3]].
Proof. vm_compute. reflexivity. Qed.

Example test_from_sparse_21_19 :
  from_sparse 0 test_data test_cols [21; 19] = Ok [TVec [2; 0]; TVec [3; 4]].
Proof. vm_compute. reflexivity. Qed.

Example test_from_sparse_19_19 :
  from_sparse 0 test_data test_cols [19; 19] = Raise NotImplementedError.
Proof. vm_compute. reflexivity. Qed.

(** A duplicate among the requested ids is refused, whatever the data. *)
Lemma from_sparse_duplicate {A} (zero : A) (data : list (tensor A))
    (cols : list (list Z)) (channel_ids : list Z) :
  ~ NoDup channel_ids ->
  from_sparse zero data cols channel_ids = Raise NotImplementedError.
Proof.
  intros Hdup. unfold from_sparse.
  destruct (decide (NoDup channel_ids)); [contradiction | reflexivity].
Qed.

(** ** The stable argsort meets numpy's contract *)

Section StableArgsortFacts.
Context {F : Type} `{Arith F}.
Hypothesis fleb_total : forall x y : F, fleb x y = true \/ fleb y x = true.
Hypothesis fleb_trans : forall x y z : F,
    fleb x y = true -> fleb y z = true -> fleb x z = true.
Variable l : list F.

(** [a] may stand before [b]. *)
Definition before (a b : nat) : Prop :=
  forall x y, l !! a = Some x -> l !! b = Some y -> fleb x y = true.

Lemma key_leb_before a b : key_leb l a b = true -> before a b.
Proof.
  unfold key_leb, before. intros Hk x y Ha Hb. by rewrite Ha, Hb in Hk.
Qed.

Lemma key_leb_false_before a b : key_leb l a b = false -> before b a.
Proof.
  unfold key_leb, before. intros Hk y x Hb Ha. rewrite Ha, Hb in Hk.
  destruct (fleb_total x y) as [Hxy|Hyx]; [congruence | exact Hyx].
Qed.

Lemma before_trans a b c :
  (b < length l)%nat -> before a b -> before b c -> before a c.
Proof.
  intros Hb Hab Hbc x z Ha Hc.
  destruct (lookup_lt_is_Some_2 l b Hb) as [y Hy].
  exact (fleb_trans x y z (Hab x y Ha Hy) (Hbc y z Hy Hc)).
Qed.

Lemma insert_index_perm i sorted : insert_index l i sorted ≡ₚ i :: sorted.
Proof.
  induction sorted as [|j rest IH]; cbn; [reflexivity|].
  destruct (key_leb l i j); [reflexivity|].
  rewrite IH. apply Permutation_swap.
Qed.

Lemma insert_index_sorted i sorted :
  Forall (fun j => (j < length l)%nat) sorted ->
  StronglySorted before sorted ->
  StronglySorted before (insert_index l i sorted).
Proof.
  intros Hrange Hs. induction Hs as [|j rest Hrest IH Hj]; cbn.
  - repeat constructor.
  - apply Forall_cons in Hrange as [Hjr Hrange].
    destruct (key_leb l i j) eqn:Hk.
    + constructor; [by constructor|]. constructor.
      * by apply key_leb_before.
      * eapply Forall_impl; [exact Hj|]. intros k Hjk.
        eapply before_trans; [exact Hjr | by apply key_leb_before | exact Hjk].
    + constructor; [by apply IH|].
      rewrite insert_index_perm. constructor; [|exact Hj].
      by apply key_leb_false_before.
Qed.

Lemma foldr_insert_index_perm xs : foldr (insert_index l) [] xs ≡ₚ xs.
Proof.
  induction xs as [|x xs IH]; cbn; [reflexivity|].
  by rewrite insert_index_perm, IH.
Qed.

Lemma foldr_insert_index_sorted xs :
  Forall (fun j => (j < length l)%nat) xs ->
  StronglySorted before (foldr (insert_index l) [] xs).
Proof.
  induction xs as [|x xs IH]; cbn; intros Hr; [constructor|].
  apply Forall_cons in Hr as [_ Hr].
  apply insert_index_sorted; [|by apply IH].
  by rewrite foldr_insert_index_perm.
Qed.

Lemma stable_argsort_perm : stable_argsort l ≡ₚ seq 0 (length l).
Proof. apply foldr_insert_index_perm. Qed.

Lemma StronglySorted_lookup_le {A} (R : A -> A -> Prop) (xs : list A) i j a b :
  StronglySorted R xs -> (i < j)%nat ->
  xs !! i = Some a -> xs !! j = Some b -> R a b.
Proof.
  intros Hs. revert i j. induction Hs as [|x xs Hs IH Hx]; intros i j Hij Hi Hj.
  - discriminate.
  - destruct j as [|j]; [lia|]. cbn in Hj. destruct i as [|i]; cbn in Hi.
    + injection Hi as <-. rewrite Forall_lookup in Hx. by eapply Hx.
    + eapply IH; [|exact Hi|exact Hj]. lia.
Qed.

Lemma stable_argsort_sorted i j a b x y :
  (i <= j)%nat -> stable_argsort l !! i = Some a -> stable_argsort l !! j = Some b ->
  l !! a = Some x -> l !! b = Some y -> fleb x y = true.
Proof.
  intros Hij Hi Hj Ha Hb.
  destruct (decide (i = j)) as [->|Hne].
  - rewrite Hi in Hj. injection Hj as <-. rewrite Ha in Hb. injection Hb as <-.
    by destruct (fleb_total x x).
  - assert (Hs : StronglySorted before (stable_argsort l)).
    { apply foldr_insert_index_sorted, Forall_seq. intros; lia. }
    eapply (StronglySorted_lookup_le before _ i j a b Hs); eauto. lia.
Qed.

(** Equal keys keep their index order: the sort is stable. *)
Lemma insert_index_head i sorted :
  Forall (fun j => (i < j)%nat) sorted ->
  StronglySorted (fun a b => before b a -> (a < b)%nat) sorted ->
  StronglySorted (fun a b => before b a -> (a < b)%nat) (insert_index l i sorted).
Proof.
  intros Hgt Hs. induction Hs as [|j rest Hrest IH Hj]; cbn.
  - repeat constructor.
  - apply Forall_cons in Hgt as [Hij Hgt].
    destruct (key_leb l i j) eqn:Hk.
    + constructor; [by constructor|]. constructor; [done|].
      eapply Forall_impl; [exact Hgt|]. cbn. intros; lia.
    + constructor; [by apply IH|].
      rewrite insert_index_perm. constructor; [|exact Hj].
      intros Hb. exfalso. unfold key_leb in Hk. unfold before in Hb.
      destruct (l !! i) as [x|] eqn:Hx; [|discriminate].
      destruct (l !! j) as [y|] eqn:Hy; [|discriminate].
      rewrite (Hb x y eq_refl eq_refl) in Hk. discriminate.
Qed.

Lemma stable_argsort_ties i j a b x y :
  (i < j)%nat -> stable_argsort l !! i = Some a -> stable_argsort l !! j = Some b ->
  l !! a = Some x -> l !! b = Some y -> fleb y x = true -> (a < b)%nat.
Proof.
  intros Hij Hi Hj Ha Hb Hyx.
  assert (Hs : forall n k, StronglySorted (fun a b => before b a -> (a < b)%nat)
                             (foldr (insert_index l) [] (seq k n))).
  { induction n as [|n IH]; intros k; cbn; [constructor|].
    apply insert_index_head; [|apply IH].
    rewrite foldr_insert_index_perm. apply Forall_seq. intros; lia. }
  eapply (StronglySorted_lookup_le _ _ i j a b (Hs _ _) Hij Hi Hj).
  intros x' y' Hb' Ha'. congruence.
Qed.
End StableArgsortFacts.

Lemma ext_leb_total (x y : ext) : ext_leb x y = true \/ ext_leb y x = true.
Proof. destruct x, y; cbn; auto. rewrite !Z.leb_le. lia. Qed.

Lemma ext_leb_trans (x y z : ext) :
  ext_leb x y = true -> ext_leb y z = true -> ext_leb x z = true.
Proof.
  destruct x, y, z; cbn; try done. rewrite !Z.leb_le. lia.
Qed.

#[export] Instance ext_argsort : ArgSort ext := {|
  argsort := stable_argsort;
  argsort_perm := stable_argsort_perm;
  argsort_sorted := stable_argsort_sorted ext_leb_total ext_leb_trans
|}.

(** ** ChannelSelector *)

Lemma mapR_pure {A B} (f : A -> result B) (g : A -> B) (xs : list A) :
  (forall x, x ∈ xs -> f x = Ok (g x)) -> mapR f xs = Ok (g <$> xs).
Proof.
  induction xs as [|x xs IH]; intros Hf; cbn; [reflexivity|].
  rewrite (Hf x) by left. cbn. rewrite IH; [reflexivity|].
  intros y Hy. apply Hf. by right.
Qed.

Section ChannelSelectorFacts.
Context {F : Type} `{ArgSort F}.
Variable m : TemplateModel F.

(** The L1 distance between two positions. *)
Definition l1 (p p0 : list F) : F := np_sum (fabs <$> zip_with fsub p p0).

(** The key of channel [c] for a template whose peak channel stands at
    [p0] on the probe [probe]. *)
Definition sort_key (p0 : list F) (probe : Z) (p : list F) (q : Z) : F :=
  if Z.eqb q probe then l1 p p0 else fadd (l1 p p0) finf.

Lemma l1_distances_Ok (peak : nat) (p0 : list F) :
  channel_positions m !! peak = Some p0 ->
  Forall (fun p => length p = length p0) (channel_positions m) ->
  l1_distances m peak = Ok ((fun p => l1 p p0) <$> channel_positions m).
Proof.
  intros Hp0 Hrect. unfold l1_distances, getitem. rewrite Hp0. cbn.
  apply mapR_pure. intros p Hp. rewrite Forall_forall in Hrect.
  unfold broadcast. rewrite decide_True by (by apply Hrect). reflexivity.
Qed.

Lemma channel_distance_Ok (t peak : nat) (probe : Z) (p0 : list F) :
  templates_channels m !! t = Some peak ->
  channel_probes m !! peak = Some probe ->
  channel_positions m !! peak = Some p0 ->
  length (channel_probes m) = length (channel_positions m) ->
  Forall (fun p => length p = length p0) (channel_positions m) ->
  channel_distance m t =
    Ok (zip_with (sort_key p0 probe) (channel_positions m) (channel_probes m)).
Proof.
  intros Ht Hq Hp0 Hlen Hrect. unfold channel_distance, getitem.
  rewrite Ht. cbn. rewrite Hq. cbn.
  rewrite (l1_distances_Ok peak p0 Hp0 Hrect). cbn.
  unfold add_inf_other_probes.
  rewrite decide_True by (rewrite !length_fmap; exact Hlen).
  f_equal. clear Ht Hq Hp0 Hrect.
  revert Hlen. generalize (channel_probes m). generalize (channel_positions m).
  intros ps. induction ps as [|p ps IH]; intros [|q qs] Hlen; try discriminate.
  - reflexivity.
  - cbn. f_equal; [|apply IH; cbn in Hlen; lia].
    unfold sort_key. by destruct (Z.eqb q probe).
Qed.

Lemma argsort_length (d : list F) : length (argsort d) = length d.
Proof. by rewrite (Permutation_length (argsort_perm d)), length_seq. Qed.

Lemma argsort_NoDup (d : list F) : NoDup (argsort d).
Proof. rewrite (argsort_perm d). apply NoDup_seq. Qed.

Lemma argsort_elem_of (d : list F) (a : nat) :
  a ∈ argsort d <-> (a < length d)%nat.
Proof. rewrite (argsort_perm d), elem_of_seq. lia. Qed.

(** The first [k] indices of the argsort: as many as asked for, distinct,
    in non-decreasing key order, and no key left out is smaller than one
    taken. *)
Lemma take_argsort_spec (d : list F) (k : nat) :
  (k <= length d)%nat ->
  let inds := take k (argsort d) in
  length inds = k /\ NoDup inds /\
  (forall a, a ∈ inds -> (a < length d)%nat) /\
  (forall i j a b x y, (i <= j)%nat -> inds !! i = Some a -> inds !! j = Some b ->
                       d !! a = Some x -> d !! b = Some y -> fleb x y = true) /\
  (forall a b x y, a ∈ inds -> (b < length d)%nat -> b ∉ inds ->
                   d !! a = Some x -> d !! b = Some y -> fleb x y = true).
Proof.
  intros Hk inds. subst inds. repeat split.
  - rewrite length_take, argsort_length. lia.
  - eapply sublist_NoDup; [apply argsort_NoDup | apply sublist_take].
  - intros a Ha. apply argsort_elem_of. by eapply subseteq_take.
  - intros i j a b x y Hij Hi Hj Ha Hb.
    apply lookup_take_Some in Hi as [Hi _]. apply lookup_take_Some in Hj as [Hj _].
    eapply argsort_sorted; eauto.
  - intros a b x y Ha Hb Hnb Hx Hy.
    apply list_elem_of_lookup in Ha as [i Hi].
    apply lookup_take_Some in Hi as [Hi Hik].
    apply argsort_elem_of, list_elem_of_lookup in Hb as [j Hj].
    destruct (decide (j < k)%nat) as [Hjk|Hjk].
    + exfalso. apply Hnb. apply list_elem_of_lookup. exists j.
      by apply lookup_take_Some.
    + eapply (argsort_sorted d i j a b); eauto. lia.
Qed.

End ChannelSelectorFacts.

(** *** Two probes of two channels each

    Channels 0 and 1 are on probe 0, channels 2 and 3 on probe 1; channel
    2 lies next to channel 0, closer to it than channel 1. *)

Definition xy (x y : Z) : list ext := [Num x; Num y].

Definition two_probes : TemplateModel ext := {|
  dir_path := "ks";
  spike_times := [Num 1; Num 2; Num 3];
  spike_samples := [10; 20; 30];
  amplitudes := [Num 5; Num 6; Num 7];
  spike_clusters := [0; 1; 1]%nat;
  n_templates := 2;
  templates_channels := [0; 3]%nat;
  templates_waveforms_durations := [Num 4; Num 6];
  templates_amplitudes := [Num 2; Num 3];
  channel_positions := [xy 0 0; xy 0 10; xy 1 0; xy 1 10];
  channel_probes := [0; 0; 1; 1];
  channel_mapping := [0; 1; 2; 3];
  sparse_features := None;
  sparse_templates :=
    {| st_shape := (2, 1, 4)%nat;
       st_data := [[[Num 1; Num 2; Num 3; Num 4]]; [[Num 5; Num 6; Num 7; Num 8]]];
       st_cols := None |}
|}.

Definition export_two_probes : EphysAlfCreator ext :=
  {| model := two_probes; out_path := "alf"; label := ""; ampfactor := Num 1 |}.

(** A world with the two directories and no file. *)
Definition empty_world : world file :=
  {| dirs := {["ks"; "alf"]}; files := ∅; drawn := 0; trace := [] |}.

(** C1 on the code: with two channels on the peak's probe and four columns
    to fill, template 0 (peak channel 0, probe 0) is given the channels 2
    and 3 of probe 1, and [templates.waveformsChannels] holds them. *)
Theorem cross_probe_channels_selected :
  nearest_channels two_probes (Nat.min NCH_WAVEFORMS 4) 0 = Ok [0; 1; 2; 3]%nat /\
  channel_probes two_probes !! 0%nat = Some 0 /\
  channel_probes two_probes !! 2%nat = Some 1 /\
  channel_probes two_probes !! 3%nat = Some 1 /\
  files (make_template_object export_two_probes empty_world).1
    !! ("alf", "templates.waveformsChannels.npy")
  = Some (FNpy (NdInt [2; 4]%nat [0; 1; 2; 3; 3; 2; 0; 1])).
Proof. repeat split; vm_compute; reflexivity. Qed.

(** ** DepthEstimator *)

(** Take apart hypotheses that say a sequence of steps returned. *)
Ltac inv_ok :=
  repeat match goal with
    | H : _ ≫= _ = Ok _ |- _ =>
        let a := fresh "a" in
        let Ha := fresh "Ha" in
        apply bind_Ok in H as (a & Ha & H)
    | H : _ <$> _ = Ok _ |- _ =>
        let a := fresh "a" in
        let Ha := fresh "Ha" in
        apply fmap_Ok in H as (a & Ha & H)
    | H : mret _ = Ok _ |- _ => injection H as H
    | H : Ok _ = Ok _ |- _ => injection H as H
    | H : (_, _) = (_, _) |- _ => injection H as ? ?
    end.

Lemma mapR_length {A B} (f : A -> result B) (xs : list A) (ys : list B) :
  mapR f xs = Ok ys -> length ys = length xs.
Proof. intros Hm. apply mapR_Ok, Forall2_length in Hm. by symmetry. Qed.

Lemma mapR_app {A B} (f : A -> result B) (xs1 xs2 : list A) (ys : list B) :
  mapR f (xs1 ++ xs2) = Ok ys <->
  exists ys1 ys2, mapR f xs1 = Ok ys1 /\ mapR f xs2 = Ok ys2 /\ ys = ys1 ++ ys2.
Proof.
  rewrite mapR_Ok. split.
  - intros Hf. apply Forall2_app_inv_l in Hf as (ys1 & ys2 & H1 & H2 & ->).
    exists ys1, ys2. by rewrite !mapR_Ok.
  - intros (ys1 & ys2 & H1 & H2 & ->). apply Forall2_app; by apply mapR_Ok.
Qed.

Lemma mapR_fmap {A B C} (h : A -> result B) (g : B -> C) (xs : list A) :
  mapR (fun x => fmap (M:=result) g (h x)) xs =
    fmap (M:=result) (fmap (M:=list) g) (mapR h xs).
Proof.
  induction xs as [|x xs IH]; cbn; [reflexivity|].
  destruct (h x) as [y|e]; cbn; [|reflexivity].
  rewrite IH. by destruct (mapR h xs).
Qed.

Section DepthArithmetic.
Context {F : Type} `{Arith F}.

Lemma foldl_zip_with_nil (cs : list (list F)) :
  foldl (zip_with fadd) [] cs = [].
Proof. induction cs as [|c cs IH]; [reflexivity | exact IH]. Qed.

(** Adding up columns that each received one more leading entry. *)
Lemma foldl_zip_with_cons (u : list F) (cs : list (list F)) (a0 : F) (acc : list F) :
  length u = length cs ->
  foldl (zip_with fadd) (a0 :: acc) (zip_with cons u cs) =
    foldl fadd a0 u :: foldl (zip_with fadd) acc cs.
Proof.
  revert cs a0 acc. induction u as [|x u IH]; intros [|c cs] a0 acc Hl;
    try discriminate; [reflexivity|].
  cbn. apply IH. cbn in Hl. lia.
Qed.

Lemma length_transpose {A} (n : nat) (rows : list (list A)) :
  Forall (fun r => length r = n) rows -> length (transpose n rows) = n.
Proof.
  induction 1 as [|r rows Hr _ IH]; cbn.
  - apply length_replicate.
  - rewrite length_zip_with. lia.
Qed.

(** The value the loop body computes from the squared features and the
    products of one spike. *)
Definition centroid (feats prod : list F) : F :=
  np_sum ((fun x => fdiv x (np_sum feats)) <$> prod).

(** Transposing, dividing by the row sums and adding along the first axis
    gives each spike the sum of its own quotients. *)
Lemma sum_axis0_transpose (n : nat) (prod : list (list F)) (sums : list F) :
  Forall (fun r => length r = n) prod -> length sums = length prod ->
  np_sum_axis0 (length prod)
    ((fun r => zip_with fdiv r sums) <$> transpose n prod) =
  zip_with (fun row s => np_sum ((fun x => fdiv x s) <$> row)) prod sums.
Proof.
  intros Hrect. revert sums. unfold np_sum_axis0.
  induction Hrect as [|r prod Hr Hrect IH]; intros sums Hs.
  - cbn. apply foldl_zip_with_nil.
  - destruct sums as [|s sums]; [discriminate|]. cbn in Hs.
    cbn [transpose length replicate zip_with].
    assert (Hq : (fun c => zip_with fdiv c (s :: sums))
                   <$> zip_with cons r (transpose n prod) =
                 zip_with cons ((fun x => fdiv x s) <$> r)
                          ((fun c => zip_with fdiv c sums) <$> transpose n prod)).
    { generalize (transpose n prod). clear. intros cs. revert cs.
      induction r as [|x r IHr]; intros [|c cs]; cbn; try reflexivity.
      f_equal. apply IHr. }
    rewrite Hq, foldl_zip_with_cons.
    + f_equal. apply IH. lia.
    + rewrite !length_fmap, length_transpose by exact Hrect. exact Hr.
Qed.

Lemma broadcast_length (op : F -> F -> F) (a b r : list F) :
  broadcast op a b = Ok r ->
  length r = (if decide (length a = length b) then length b
              else if decide (length a = 1%nat) then length b else length a).
Proof.
  unfold broadcast. destruct (decide (length a = length b)) as [Hab|Hab].
  - intros [= <-]. rewrite length_zip_with. lia.
  - destruct a as [|x [|x' a]], b as [|y [|y' b]]; intros Hr;
      try discriminate Hr; try (exfalso; apply Hab; reflexivity);
      injection Hr as <-; cbn; rewrite ?length_fmap; reflexivity.
Qed.
End DepthArithmetic.

Section DepthEstimatorFacts.
Context {F : Type} `{Arith F}.
Variable model : TemplateModel F.
Variable sf : SparseFeatures F.

(** The squared features of spike [i] and their products with the
    vertical coordinates of its channels. *)
Definition spike_parts (i : nat) : result (list F * list F) :=
  row ← getitem (sf_data sf) i;
  feats ← mapR (fun comps => np_square <$> getitem comps 0) row;
  cl ← getitem (spike_clusters model) i;
  chans ← getitem (sf_cols sf) cl;
  ypos ← mapR (ypos_of model) chans;
  prod ← broadcast fmul ypos feats;
  mret (feats, prod).

(** The depth of spike [i] computed on its own: the weighted centroid of
    section 4.5, with the quotients added in channel order. *)
Definition spike_depth (i : nat) : result F :=
  (fun fp => centroid fp.1 fp.2) <$> spike_parts i.

(** The fallible steps of [batch_depths]. *)
Definition batch_parts (ispi : list nat) : result (list (list F) * list (list F)) :=
  features ← mapR (fun i => row ← getitem (sf_data sf) i;
                            mapR (fun comps => np_square <$> getitem comps 0) row)
                  ispi;
  clusters ← mapR (getitem (spike_clusters model)) ispi;
  ichannels ← mapR (getitem (sf_cols sf)) clusters;
  ypos ← mapR (mapR (ypos_of model)) ichannels;
  prod ← mul_rows ypos features;
  mret (features, prod).

Lemma batch_depths_parts (ispi : list nat) :
  batch_depths model sf ispi =
    (fun fp => np_sum_axis0 (length ispi)
                 ((fun r => zip_with fdiv r (np_sum <$> fp.1))
                    <$> transpose (ncols fp.2) fp.2))
      <$> batch_parts ispi.
Proof.
  unfold batch_depths, batch_parts.
  repeat match goal with
         | |- context [mbind _ ?r] =>
             match r with
             | mapR _ _ => destruct r; cbn; [|reflexivity]
             | mul_rows _ _ => destruct r; cbn; [|reflexivity]
             end
         end.
  reflexivity.
Qed.

Lemma batch_parts_nil : batch_parts [] = Ok ([], []).
Proof. reflexivity. Qed.

Lemma batch_parts_cons (i : nat) (ispi : list nat) fs ps :
  batch_parts (i :: ispi) = Ok (fs, ps) <->
  exists f p fs' ps',
    spike_parts i = Ok (f, p) /\ batch_parts ispi = Ok (fs', ps') /\
    fs = f :: fs' /\ ps = p :: ps'.
Proof.
  unfold batch_parts, spike_parts. split.
  - intros Hb. cbn [mapR] in Hb. inv_ok. subst.
    cbn [mapR] in *. inv_ok. subst. cbn [mapR] in *. inv_ok. subst.
    cbn [mul_rows] in *. inv_ok. subst.
    repeat match goal with
           | Hx : ?x = Ok _ |- context [?x] => rewrite Hx; cbn
           end.
    do 4 eexists. repeat split; try reflexivity.
  - intros (f & p & fs' & ps' & Hs & Hb & -> & ->). inv_ok. subst.
    cbn [mapR].
    repeat match goal with
           | Hx : ?x = Ok _ |- context [?x] => rewrite Hx; cbn
           end.
    reflexivity.
Qed.

Lemma mapR_cons_Ok {A B} (f : A -> result B) (x : A) (xs : list A) (ys : list B) :
  mapR f (x :: xs) = Ok ys <->
  exists y ys', f x = Ok y /\ mapR f xs = Ok ys' /\ ys = y :: ys'.
Proof.
  cbn. rewrite bind_Ok. split.
  - intros (y & Hy & Hr). inv_ok. subst. eauto.
  - intros (y & ys' & Hy & Hys & ->). exists y. split; [exact Hy|].
    rewrite Hys. reflexivity.
Qed.

Lemma batch_parts_Ok (ispi : list nat) fs ps :
  batch_parts ispi = Ok (fs, ps) <->
  exists fps, mapR spike_parts ispi = Ok fps /\ fs = fps.*1 /\ ps = fps.*2.
Proof.
  revert fs ps. induction ispi as [|i ispi IH]; intros fs ps.
  - rewrite batch_parts_nil. split.
    + intros [= <- <-]. exists []. done.
    + intros (fps & [= <-] & -> & ->). reflexivity.
  - rewrite batch_parts_cons. split.
    + intros (f & p & fs' & ps' & Hs & Hb & -> & ->).
      apply IH in Hb as (fps & Hm & -> & ->).
      exists ((f, p) :: fps). split; [|done].
      apply mapR_cons_Ok. eauto.
    + intros (fps & Hm & -> & ->).
      apply mapR_cons_Ok in Hm as ([f p] & fps' & Hs & Hm & ->).
      exists f, p, (fps'.*1), (fps'.*2). repeat split; [exact Hs|].
      apply IH. eauto.
Qed.

Section Rectangular.
Variables nl nc : nat.
Hypothesis data_rect : Forall (fun row => length row = nl) (sf_data sf).
Hypothesis cols_rect : Forall (fun row => length row = nc) (sf_cols sf).

(** The number of products per spike. *)
Definition n_prod : nat :=
  if decide (nc = nl) then nl else if decide (nc = 1%nat) then nl else nc.

Lemma spike_parts_length (i : nat) f p :
  spike_parts i = Ok (f, p) -> length p = n_prod.
Proof.
  unfold spike_parts. intros Hs. inv_ok. subst.
  match goal with Hb : broadcast _ _ _ = Ok _ |- _ =>
    apply broadcast_length in Hb; rewrite Hb end.
  repeat match goal with Hm : mapR _ _ = Ok _ |- _ =>
    apply mapR_length in Hm; rewrite Hm end.
  repeat match goal with Hg : getitem _ _ = Ok _ |- _ =>
    apply getitem_Ok in Hg end.
  rewrite Forall_lookup in data_rect. rewrite Forall_lookup in cols_rect.
  erewrite data_rect by eassumption. erewrite cols_rect by eassumption.
  reflexivity.
Qed.

Lemma mapR_spike_parts_rect (ispi : list nat) fps :
  mapR spike_parts ispi = Ok fps ->
  Forall (fun r => length r = ncols (fps.*2)) (fps.*2).
Proof.
  intros Hm. assert (Hall : Forall (fun r => length r = n_prod) (fps.*2)).
  { apply mapR_Ok in Hm. induction Hm as [|i [f p] ispi fps Hi _ IH]; cbn.
    - constructor.
    - constructor; [by eapply spike_parts_length | exact IH]. }
  destruct (fps.*2) as [|r rs]; [constructor|]. cbn.
  apply Forall_cons in Hall as [Hr Hall]. rewrite Hr. by constructor.
Qed.

Lemma zip_with_centroid (fps : list (list F * list F)) :
  zip_with (fun row s => np_sum ((fun x => fdiv x s) <$> row))
           (fps.*2) (np_sum <$> fps.*1)
  = (fun fp => centroid fp.1 fp.2) <$> fps.
Proof.
  induction fps as [|[f p] fps IH]; cbn; [reflexivity|]. by rewrite IH.
Qed.

(** One pass of the loop returns exactly when every spike of the batch
    has a depth of its own, and returns those depths. *)
Lemma batch_depths_Ok (ispi : list nat) (vals : list F) :
  batch_depths model sf ispi = Ok vals <-> mapR spike_depth ispi = Ok vals.
Proof.
  rewrite batch_depths_parts. unfold spike_depth. rewrite mapR_fmap, !fmap_Ok.
  split.
  - intros ([fs ps] & Hb & ->). apply batch_parts_Ok in Hb as (fps & Hm & -> & ->).
    exists fps. split; [exact Hm|]. cbn [fst snd].
    rewrite <- zip_with_centroid.
    rewrite <- (sum_axis0_transpose (ncols (fps.*2))).
    + by rewrite length_fmap, (mapR_length _ _ _ Hm).
    + by eapply mapR_spike_parts_rect.
    + by rewrite !length_fmap.
  - intros (fps & Hm & ->). exists (fps.*1, fps.*2). split.
    + apply batch_parts_Ok. eauto.
    + cbn [fst snd]. rewrite <- zip_with_centroid.
      rewrite <- (sum_axis0_transpose (ncols (fps.*2))).
      * by rewrite length_fmap, (mapR_length _ _ _ Hm).
      * by eapply mapR_spike_parts_rect.
      * by rewrite !length_fmap.
Qed.

Lemma assign_at_seq (depths vals : list F) (c : nat) :
  (c + length vals <= length depths)%nat ->
  assign_at depths (seq c (length vals)) vals =
    take c depths ++ vals ++ drop (c + length vals) depths.
Proof.
  unfold assign_at. revert c depths.
  induction vals as [|v vals IH]; intros c depths Hl; cbn [length seq zip zip_with foldl].
  - rewrite Nat.add_0_r. cbn. by rewrite take_drop.
  - cbn [length] in Hl. cbn [fst snd]. rewrite IH by (rewrite length_insert; lia).
    rewrite (take_S_r _ c v) by (apply list_lookup_insert_eq; lia).
    rewrite take_insert_ge by lia.
    rewrite drop_insert_lt by lia.
    rewrite <- app_assoc. cbn [app].
    replace (c + S (length vals))%nat with (S c + length vals)%nat by lia.
    reflexivity.
Qed.

(** The loop started at spike [c] returns when every spike from [c] on has
    a depth of its own; it leaves the first [c] entries as they were and
    stores those depths behind them. *)
Lemma depth_loop_Ok (nbatch : positive) (c : nat) (depths out : list F) :
  (c <= nspi model)%nat -> length depths = nspi model ->
  depth_loop model sf nbatch c depths = Ok out <->
  exists vals,
    mapR spike_depth (seq c (nspi model - c)) = Ok vals /\
    out = take c depths ++ vals.
Proof.
  remember (nspi model - c)%nat as k eqn:Hk. revert c depths Hk.
  induction k as [k IH] using lt_wf_ind. intros c depths Hk Hc Hlen.
  rewrite depth_loop_equation_1.
  remember (Nat.min (c + Pos.to_nat nbatch) (nspi model) - c)%nat as b eqn:Hbdef.
  assert (Hsplit : seq c k = seq c b ++ seq (c + b) (k - b)).
  { rewrite <- seq_app. f_equal. lia. }
  destruct (batch_depths model sf (seq c b)) as [vals|e] eqn:Hb;
    cbn [depth_loop_unfold_clause_1].
  - apply batch_depths_Ok in Hb.
    assert (Hvals : length vals = b).
    { rewrite (mapR_length _ _ _ Hb). apply length_seq. }
    assert (Hassign : assign_at depths (seq c b) vals =
                      take c depths ++ vals ++ drop (c + b) depths).
    { rewrite <- Hvals. apply assign_at_seq. lia. }
    cbv zeta. rewrite <- Hbdef, Hassign.
    destruct (decide (nspi model <= c + Pos.to_nat nbatch)%nat) as [Hend|Hmore].
    + assert (b = k) by lia. subst b. rewrite ?H0 in *.
      rewrite drop_ge, app_nil_r by lia.
      split.
      * intros [= <-]. eauto.
      * intros (vals' & Hv & ->). rewrite Hb in Hv. by injection Hv as <-.
    + assert (Hbn : b = Pos.to_nat nbatch) by lia.
      rewrite (IH (k - b)%nat); [|lia|lia|lia|].
      2:{ rewrite !length_app, length_take, length_drop. lia. }
      rewrite <- Hbn. rewrite Hsplit.
      assert (Htake : take (c + b) (take c depths ++ vals ++ drop (c + b) depths)
                      = take c depths ++ vals).
      { rewrite app_assoc. apply take_app_length'.
        rewrite length_app, length_take. lia. }
      rewrite Htake.
      replace (nspi model - (c + b))%nat with (k - b)%nat by lia.
      split.
      * intros (vals2 & Hv2 & ->). exists (vals ++ vals2).
        split; [|by rewrite app_assoc].
        apply mapR_app. eauto.
      * intros (vals' & Hv & ->).
        apply mapR_app in Hv as (v1 & v2 & Hv1 & Hv2 & ->).
        rewrite Hb in Hv1. injection Hv1 as <-.
        exists v2. split; [exact Hv2 | by rewrite app_assoc].
  - split; [discriminate|].
    intros (vals' & Hv & _). rewrite Hsplit in Hv.
    apply mapR_app in Hv as (v1 & v2 & Hv1 & _).
    apply batch_depths_Ok in Hv1. congruence.
Qed.

(** The batched computation returns exactly the depths the spikes have on
    their own, whatever the batch size. *)
Lemma batched_depths_Ok (nbatch : positive) (out : list F) :
  batched_depths model sf nbatch = Ok out <->
  mapR spike_depth (seq 0 (nspi model)) = Ok out.
Proof.
  unfold batched_depths.
  rewrite depth_loop_Ok by (rewrite ?length_replicate; lia).
  rewrite Nat.sub_0_r. cbn [take app]. split.
  - intros (vals & Hv & ->). exact Hv.
  - intros Hv. eauto.
Qed.
End Rectangular.

(** C8: for a feature tensor and a column map that are rectangular (as
    arrays are), the per-spike depths computed in batches do not depend on
    the batch size: two batch sizes both return, with the same array, or
    both raise. *)
Theorem batched_depths_batch_invariant (nl nc : nat) (nbatch1 nbatch2 : positive) :
  Forall (fun row => length row = nl) (sf_data sf) ->
  Forall (fun row => length row = nc) (sf_cols sf) ->
  match batched_depths model sf nbatch1, batched_depths model sf nbatch2 with
  | Ok d1, Ok d2 => d1 = d2
  | Raise _, Raise _ => True
  | _, _ => False
  end.
Proof.
  intros Hd Hc.
  pose proof (batched_depths_Ok nl nc Hd Hc nbatch1) as H1.
  pose proof (batched_depths_Ok nl nc Hd Hc nbatch2) as H2.
  destruct (batched_depths model sf nbatch1) as [d1|e1],
           (batched_depths model sf nbatch2) as [d2|e2]; [| | |exact I].
  - pose proof (proj1 (H1 d1) eq_refl) as Ha.
    pose proof (proj1 (H2 d2) eq_refl) as Hb. congruence.
  - pose proof (proj1 (H1 d1) eq_refl) as Ha.
    pose proof (proj2 (H2 d1) Ha). discriminate.
  - pose proof (proj1 (H2 d2) eq_refl) as Hb.
    pose proof (proj2 (H1 d2) Hb). discriminate.
Qed.
End DepthEstimatorFacts.

(** Three spikes with two local channels each; the first two components
    per channel are given, only the first is used. *)
Definition three_spikes : SparseFeatures ext := {|
  sf_data := [ [[Num 1; Num 9]; [Num 2; Num 9]];
               [[Num 3; Num 9]; [Num 1; Num 9]];
               [[Num 0; Num 9]; [Num 2; Num 9]] ];
  sf_cols := [ [0; 1]%nat; [2; 3]%nat ]
|}.

Example batched_depths_1 :
  batched_depths two_probes three_spikes 1 = Ok [Num 8; Num 1; Num 10].
Proof. vm_compute. reflexivity. Qed.

Example batched_depths_7 :
  batched_depths two_probes three_spikes 7 = Ok [Num 8; Num 1; Num 10].
Proof. vm_compute. reflexivity. Qed.

Example batched_depths_50000 :
  batched_depths two_probes three_spikes 50000 = Ok [Num 8; Num 1; Num 10].
Proof. vm_compute. reflexivity. Qed.

Lemma batched_depths_batch_invariant_witness :
  Forall (fun row => length row = 2%nat) (sf_data three_spikes) /\
  Forall (fun row => length row = 2%nat) (sf_cols three_spikes) /\
  match batched_depths two_probes three_spikes 1,
        batched_depths two_probes three_spikes 50000 with
  | Ok d1, Ok d2 => d1 = d2
  | Raise _, Raise _ => True
  | _, _ => False
  end.
Proof.
  assert (Hd : Forall (fun row => length row = 2%nat) (sf_data three_spikes))
    by (repeat constructor).
  assert (Hc : Forall (fun row => length row = 2%nat) (sf_cols three_spikes))
    by (repeat constructor).
  split; [exact Hd|]. split; [exact Hc|].
  exact (batched_depths_batch_invariant two_probes three_spikes 2 2 1 50000 Hd Hc).
Defined.

(** ** The irregular layout check of [make_template_object] *)

Definition with_cols (m : TemplateModel ext) (cols : list (list Z)) : TemplateModel ext :=
  {| dir_path := dir_path m;
     spike_times := spike_times m;
     spike_samples := spike_samples m;
     amplitudes := amplitudes m;
     spike_clusters := spike_clusters m;
     n_templates := n_templates m;
     templates_channels := templates_channels m;
     templates_waveforms_durations := templates_waveforms_durations m;
     templates_amplitudes := templates_amplitudes m;
     channel_positions := channel_positions m;
     channel_probes := channel_probes m;
     channel_mapping := channel_mapping m;
     sparse_features := sparse_features m;
     sparse_templates :=
       {| st_shape := st_shape (sparse_templates m);
          st_data := st_data (sparse_templates m);
          st_cols := Some cols |} |}.

Definition export_with_cols (cols : list (list Z)) : EphysAlfCreator ext :=
  {| model := with_cols two_probes cols; out_path := "alf"; label := "";
     ampfactor := Num 1 |}.

(** C5 on the code: the test [if self.model.sparse_templates.cols:] takes
    the truth value of an array.  A column map with more than one entry
    makes it raise ValueError, not NotImplementedError; the one-entry map
    [[0]] counts as false and the dense export runs and writes its files;
    only a one-entry map with a non-zero id reaches the intended error. *)
Theorem irregular_layout_check :
  make_template_object (export_with_cols [[0; 1]; [1; 2]]) empty_world
    = (empty_world, Raise ValueError) /\
  (make_template_object (export_with_cols [[0]]) empty_world).2 = Ok tt /\
  files (make_template_object (export_with_cols [[0]]) empty_world).1
    !! ("alf", "templates.waveformsChannels.npy")
    = Some (FNpy (NdInt [2; 4]%nat [0; 1; 2; 3; 3; 2; 0; 1])) /\
  make_template_object (export_with_cols [[5]]) empty_world
    = (empty_world, Raise NotImplementedError).
Proof. repeat split; vm_compute; reflexivity. Qed.

(** ** ConversionOrchestrator *)

Section Orchestrator.
Context {F content : Type} `{ArgSort F} `{NpyIO F content}
        `{Resolve} `{Uuid} `{LiteralEval}.

(** X4 (the property of claim C7): when the source and the destination
    resolve to the same directory, [convert] raises its IOError (the ConfigurationError of
    the specification) in the world it was called in: no directory was
    made, no file written, copied, renamed or deleted, no identifier
    drawn. *)
Theorem convert_same_directory (m : TemplateModel F) (out_path : string)
    (force : bool) (label : string) (ampfactor : F) (w : world content) :
  resolve out_path = resolve (dir_path m) ->
  convert m out_path force label ampfactor w = (w, Raise IOError).
Proof.
  intros Hsame. unfold convert.
  destruct (decide (resolve out_path = resolve (dir_path m))) as [_|Hne];
    [reflexivity | contradiction].
Qed.
End Orchestrator.

Lemma convert_same_directory_witness :
  resolve "ks" = resolve (dir_path two_probes) /\
  convert two_probes "ks" false "" (Num 1) empty_world = (empty_world, Raise IOError).
Proof.
  split; [reflexivity|].
  exact (convert_same_directory two_probes "ks" false "" (Num 1) empty_world eq_refl).
Defined.

(** ** Reasoning about the exporter's effects *)

Section Effects.
Context {content : Type}.
Implicit Types (w : world content) (E : event -> Prop) (K : string * string -> Prop).

Lemma bind_run {A B} (m : M content A) (f : A -> M content B) w :
  (m ≫= f) w = match m w with
               | (w', Ok a) => f a w'
               | (w', Raise e) => (w', Raise e)
               end.
Proof. reflexivity. Qed.

(** [m] keeps the property [I] of the world, whether it returns or raises. *)
Definition preserves {A} (I : world content -> Prop) (m : M content A) : Prop :=
  forall w, I w -> I (m w).1.

Lemma preserves_ret {A} I (a : A) : preserves I (mret a : M content A).
Proof. intros w Hw. exact Hw. Qed.

Lemma preserves_raise {A} I (e : exn) : preserves I (raise e : M content A).
Proof. intros w Hw. exact Hw. Qed.

Lemma preserves_lift {A} I (r : result A) : preserves I (lift r : M content A).
Proof. intros w Hw. exact Hw. Qed.

Lemma preserves_bind {A B} I (m : M content A) (f : A -> M content B) :
  preserves I m -> (forall a, preserves I (f a)) -> preserves I (m ≫= f).
Proof.
  intros Hm Hf w Hw. rewrite bind_run. specialize (Hm w Hw).
  destruct (m w) as [w' [a|e]]; cbn in *; [by apply Hf | exact Hm].
Qed.

Lemma preserves_for_each {A} I (xs : list A) (body : A -> M content unit) :
  (forall x, x ∈ xs -> preserves I (body x)) -> preserves I (for_each xs body).
Proof.
  induction xs as [|x xs IH]; intros Hb; cbn [for_each].
  - apply preserves_ret.
  - apply preserves_bind; [apply Hb; by left|].
    intros _. apply IH. intros y Hy. apply Hb. by right.
Qed.

(** [m] raises from every world with the property [I], and leaves a world
    with that property. *)
Definition fails {A} (I : world content -> Prop) (m : M content A) : Prop :=
  forall w, I w -> I (m w).1 /\ exists e, (m w).2 = Raise e.

Lemma fails_bind_l {A B} I (m : M content A) (f : A -> M content B) :
  fails I m -> fails I (m ≫= f).
Proof.
  intros Hm w Hw. rewrite bind_run. destruct (Hm w Hw) as [HI [e He]].
  destruct (m w) as [w' [a|e']]; cbn in *; [discriminate | eauto].
Qed.

Lemma fails_bind_r {A B} I (m : M content A) (f : A -> M content B) :
  preserves I m -> (forall a, fails I (f a)) -> fails I (m ≫= f).
Proof.
  intros Hm Hf w Hw. rewrite bind_run. specialize (Hm w Hw).
  destruct (m w) as [w' [a|e']]; cbn in *; [by apply Hf | eauto].
Qed.

(** What changed between two worlds: directories were only added, the
    new events all satisfy [E], and the files outside [K] are as before. *)
Record touches E K w w' : Prop := {
  touches_dirs : dirs w ⊆ dirs w';
  touches_trace : exists new, trace w' = new ++ trace w /\ Forall E new;
  touches_files : forall k, ~ K k -> files w' !! k = files w !! k
}.

Lemma touches_refl E K w : touches E K w w.
Proof. split; [done | by exists [] | done]. Qed.

Lemma touches_trans E K w1 w2 w3 :
  touches E K w1 w2 -> touches E K w2 w3 -> touches E K w1 w3.
Proof.
  intros [Hd1 (n1 & Ht1 & He1) Hf1] [Hd2 (n2 & Ht2 & He2) Hf2]. split.
  - set_solver.
  - exists (n2 ++ n1). split; [by rewrite Ht2, Ht1, app_assoc | by apply Forall_app].
  - intros k Hk. by rewrite Hf2, Hf1.
Qed.

Lemma touches_mono E E' K K' w w' :
  (forall e, E e -> E' e) -> (forall k, K k -> K' k) ->
  touches E K w w' -> touches E' K' w w'.
Proof.
  intros HE HK [Hd (n & Ht & He) Hf]. split; [done| |].
  - exists n. split; [done|]. eapply Forall_impl; eauto.
  - intros k Hk. apply Hf. intros HKk. apply Hk, HK, HKk.
Qed.

(** [m] touches only [E] and [K], from every world. *)
Definition footprint {A} E K (m : M content A) : Prop :=
  forall w, touches E K w (m w).1.

Lemma footprint_preserves {A} E K (m : M content A) w0 :
  footprint E K m -> preserves (touches E K w0) m.
Proof. intros Hm w Hw. eapply touches_trans; [exact Hw | apply Hm]. Qed.

Lemma footprint_mono {A} E E' K K' (m : M content A) :
  (forall e, E e -> E' e) -> (forall k, K k -> K' k) ->
  footprint E K m -> footprint E' K' m.
Proof. intros HE HK Hm w. eapply touches_mono; eauto. Qed.

Lemma footprint_ret {A} E K (a : A) : footprint E K (mret a : M content A).
Proof. intros w. apply touches_refl. Qed.

Lemma footprint_raise {A} E K (e : exn) : footprint E K (raise e : M content A).
Proof. intros w. apply touches_refl. Qed.

Lemma footprint_lift {A} E K (r : result A) : footprint E K (lift r : M content A).
Proof. intros w. apply touches_refl. Qed.

Lemma footprint_bind {A B} E K (m : M content A) (f : A -> M content B) :
  footprint E K m -> (forall a, footprint E K (f a)) -> footprint E K (m ≫= f).
Proof.
  intros Hm Hf w. rewrite bind_run. specialize (Hm w).
  destruct (m w) as [w' [a|e]]; cbn in *; [|exact Hm].
  eapply touches_trans; [exact Hm | apply Hf].
Qed.

Lemma footprint_for_each {A} E K (xs : list A) (body : A -> M content unit) :
  (forall x, x ∈ xs -> footprint E K (body x)) -> footprint E K (for_each xs body).
Proof.
  induction xs as [|x xs IH]; intros Hb; cbn [for_each].
  - apply footprint_ret.
  - apply footprint_bind; [apply Hb; by left|].
    intros _. apply IH. intros y Hy. apply Hb. by right.
Qed.
End Effects.

Section PrimitiveFootprints.
Context {F content : Type} `{NpyIO F content} `{Resolve} `{Uuid}.
Implicit Types (w : world content) (E : event -> Prop) (K : string * string -> Prop).

Lemma footprint_file_exists E K p : footprint (content:=content) E K (file_exists p).
Proof. intros w. apply touches_refl. Qed.

Lemma footprint_dir_exists E K d : footprint (content:=content) E K (dir_exists d).
Proof. intros w. apply touches_refl. Qed.

Lemma footprint_listdir E K d : footprint (content:=content) E K (listdir d).
Proof. intros w. apply touches_refl. Qed.

Lemma footprint_read_file E K p : footprint (content:=content) E K (read_file p).
Proof.
  intros w. unfold read_file. destruct (files w !! key p); apply touches_refl.
Qed.

Lemma footprint_draw_uuid E K : footprint (content:=content) E K draw_uuid.
Proof. intros w. split; cbn; [done | by exists [] | done]. Qed.

Lemma footprint_draw_uuids E K n : footprint (content:=content) E K (draw_uuids n).
Proof.
  induction n as [|n IH]; cbn [draw_uuids]; [apply footprint_ret|].
  apply footprint_bind; [apply footprint_draw_uuid|]. intros u.
  apply footprint_bind; [exact IH|]. intros us. apply footprint_ret.
Qed.

Lemma footprint_mkdir E K d : E (EMkdir (resolve d)) -> footprint (content:=content) E K (mkdir d).
Proof.
  intros HE w. split; cbn; [set_solver | | done].
  exists [EMkdir (resolve d)]. split; [done | by constructor].
Qed.

Lemma footprint_ensure_dir_exists E K d :
  E (EMkdir (resolve d)) -> footprint (content:=content) E K (ensure_dir_exists d).
Proof.
  intros HE. unfold ensure_dir_exists.
  apply footprint_bind; [apply footprint_dir_exists|].
  intros [|]; [apply footprint_ret | by apply footprint_mkdir].
Qed.

Lemma footprint_write_file E K p c :
  E (EWrite (key p)) -> K (key p) -> footprint (content:=content) E K (write_file p c).
Proof.
  intros HE HK w. unfold write_file.
  destruct (decide (resolve p.1 ∈ dirs w)); [|apply touches_refl].
  split; cbn; [done | |].
  - exists [EWrite (key p)]. split; [done | by constructor].
  - intros k Hk. apply lookup_insert_ne. congruence.
Qed.

Lemma footprint_shutil_copy E K src dst :
  E (ECopy (key src) (key dst)) -> K (key dst) -> footprint (content:=content) E K (shutil_copy src dst).
Proof.
  intros HE HK w. unfold shutil_copy.
  destruct (files w !! key src); [|apply touches_refl].
  destruct (decide (key src = key dst)); [apply touches_refl|].
  destruct (decide (resolve dst.1 ∈ dirs w)); [|apply touches_refl].
  split; cbn; [done | |].
  - exists [ECopy (key src) (key dst)]. split; [done | by constructor].
  - intros k Hk. apply lookup_insert_ne. congruence.
Qed.

Lemma footprint_unlink E K p :
  E (EUnlink (key p)) -> K (key p) -> footprint (content:=content) E K (unlink p).
Proof.
  intros HE HK w. unfold unlink.
  destruct (files w !! key p); [|apply touches_refl].
  split; cbn; [done | |].
  - exists [EUnlink (key p)]. split; [done | by constructor].
  - intros k Hk. apply lookup_delete_ne. congruence.
Qed.

Lemma footprint_rename E K src dst :
  E (ERename (key src) (key dst)) -> K (key src) -> K (key dst) ->
  footprint (content:=content) E K (rename src dst).
Proof.
  intros HE Hs Hd w. unfold rename.
  destruct (files w !! key src); [|apply touches_refl].
  split; cbn; [done | |].
  - exists [ERename (key src) (key dst)]. split; [done | by constructor].
  - intros k Hk. rewrite lookup_insert_ne by congruence.
    apply lookup_delete_ne. congruence.
Qed.

Lemma footprint_np_load E K p : footprint (content:=content) E K (np_load p).
Proof.
  unfold np_load. apply footprint_bind; [apply footprint_read_file|].
  intros c. apply footprint_lift.
Qed.

(** The name [np.save] writes to. *)
Definition npy_name (name : string) : string :=
  if has_suffix ".npy" name then name else name +:+ ".npy".

Lemma footprint_np_save E K p a :
  E (EWrite (resolve p.1, npy_name p.2)) -> K (resolve p.1, npy_name p.2) ->
  footprint (content:=content) E K (np_save p a).
Proof. intros HE HK. unfold np_save. by apply footprint_write_file. Qed.
End PrimitiveFootprints.

(** ** What each stage of [convert] touches *)

Definition copy_names : list string := (fun e => e.1.2) <$> _FILE_RENAMES.
Definition spike_names : list string :=
  ["spikes.times.npy"; "spikes.samples.npy"; "spikes.amps.npy"].
Definition cluster_names : list string :=
  ["clusters.channels.npy"; "clusters.peakToTrough.npy"; "clusters.amps.npy";
   "clusters.uuids.csv"].
Definition channel_names : list string := ["channels.rawInd.npy"].
Definition depth_names : list string := ["spikes.depths.npy"; "clusters.depths.npy"].
Definition template_names : list string :=
  ["templates.waveforms.npy"; "templates.waveformsChannels.npy";
   "clusters.waveforms.npy"; "clusters.waveformsChannels.npy"].

Ltac eval_npy_name :=
  repeat match goal with
    | |- context [npy_name ?n] =>
        let r := eval vm_compute in (npy_name n) in
        change (npy_name n) with r
    end.

Ltac in_list := apply list_elem_of_In; cbn; tauto.

Section StageFootprints.
Context {F content : Type} `{ArgSort F} `{NpyIO F content}
        `{Resolve} `{Uuid} `{LiteralEval}.
Implicit Types (self : EphysAlfCreator F).

(** The files named [ns] of the directory [out]. *)
Definition dest_keys (out : string) (ns : list string) (k : string * string) : Prop :=
  k.1 = resolve out /\ k.2 ∈ ns.

(** Making [out], and writing or copying to one of its files named [ns]. *)
Definition dest_events (out : string) (ns : list string) (e : event) : Prop :=
  match e with
  | EMkdir d => d = resolve out
  | EWrite k | ECopy _ k => dest_keys out ns k
  | ERename _ _ | EUnlink _ => False
  end.

Lemma footprint_save E K self (name : string) (a : ndarray F) :
  E (EWrite (resolve (out_path self), npy_name name)) ->
  K (resolve (out_path self), npy_name name) ->
  footprint (content:=content) E K (_save_npy self name a).
Proof. intros HE HK. unfold _save_npy. by apply footprint_np_save. Qed.

Ltac fp_side :=
  cbn [dest_events dest_keys key fst snd]; eval_npy_name;
  first [ reflexivity | split; [reflexivity | in_list] ].

Ltac fp_step :=
  first
    [ apply footprint_ret | apply footprint_raise | apply footprint_lift
    | apply footprint_file_exists | apply footprint_dir_exists
    | apply footprint_listdir | apply footprint_read_file
    | apply footprint_np_load | apply footprint_draw_uuids
    | apply footprint_save; fp_side
    | apply footprint_np_save; fp_side
    | apply footprint_write_file; fp_side
    | apply footprint_shutil_copy; fp_side
    | apply footprint_ensure_dir_exists; fp_side
    | apply footprint_mkdir; fp_side
    | apply footprint_bind; [|intros ?]
    | match goal with
      | |- footprint _ _ (if ?b then _ else _) => destruct b
      | |- footprint _ _ (match ?x with _ => _ end) => destruct x
      end ].

Lemma footprint_make_spike_times_amplitudes self :
  footprint (content:=content)
    (dest_events (out_path self) spike_names) (dest_keys (out_path self) spike_names)
    (make_spike_times_amplitudes self).
Proof. unfold make_spike_times_amplitudes. repeat fp_step. Qed.

Lemma footprint_make_cluster_objects self :
  footprint (content:=content)
    (dest_events (out_path self) cluster_names) (dest_keys (out_path self) cluster_names)
    (make_cluster_objects self).
Proof. unfold make_cluster_objects. repeat fp_step. Qed.

Lemma footprint_make_channel_objects self :
  footprint (content:=content)
    (dest_events (out_path self) channel_names) (dest_keys (out_path self) channel_names)
    (make_channel_objects self).
Proof. unfold make_channel_objects. repeat fp_step. Qed.

Lemma footprint_make_depths self :
  footprint (content:=content)
    (dest_events (out_path self) depth_names) (dest_keys (out_path self) depth_names)
    (make_depths self).
Proof. unfold make_depths. repeat fp_step. Qed.

Lemma footprint_make_template_object self :
  footprint (content:=content)
    (dest_events (out_path self) template_names)
    (dest_keys (out_path self) template_names)
    (make_template_object self).
Proof. unfold make_template_object. repeat fp_step. Qed.
End StageFootprints.

Ltac fp_side :=
  cbn [dest_events dest_keys key fst snd]; eval_npy_name;
  first [ reflexivity | split; [reflexivity | in_list] | split; [reflexivity | assumption] ].

Ltac fp_step :=
  first
    [ apply footprint_ret | apply footprint_raise | apply footprint_lift
    | apply footprint_file_exists | apply footprint_dir_exists
    | apply footprint_listdir | apply footprint_read_file
    | apply footprint_np_load | apply footprint_draw_uuids
    | apply footprint_save; fp_side
    | apply footprint_np_save; fp_side
    | apply footprint_write_file; fp_side
    | apply footprint_shutil_copy; fp_side
    | apply footprint_ensure_dir_exists; fp_side
    | apply footprint_mkdir; fp_side
    | apply footprint_bind; [|intros ?]
    | match goal with
      | |- footprint _ _ (if ?b then _ else _) => destruct b
      | |- footprint _ _ (match ?x with _ => _ end) => destruct x
      end ].

Section ConvertFootprint.
Context {F content : Type} `{ArgSort F} `{NpyIO F content}
        `{Resolve} `{Uuid} `{LiteralEval}.
Implicit Types (self : EphysAlfCreator F).

Lemma footprint__copy_if_possible E K (path new_path : path) (force : bool) :
  E (EMkdir (resolve new_path.1)) -> E (ECopy (key path) (key new_path)) ->
  K (key new_path) ->
  footprint (content:=content) E K (_copy_if_possible path new_path force).
Proof.
  intros Hmk Hcp HK. unfold _copy_if_possible, _create_if_possible.
  repeat first [ by apply footprint_ensure_dir_exists
               | by apply footprint_shutil_copy
               | fp_step ].
Qed.

Lemma file_renames_names (fn0 fn1 : string) (squeeze : option bool) :
  (fn0, fn1, squeeze) ∈ _FILE_RENAMES ->
  fn1 ∈ copy_names /\ (is_true squeeze = true -> npy_name fn1 = fn1).
Proof.
  intros Hin. split.
  - unfold copy_names. apply list_elem_of_fmap. by exists (fn0, fn1, squeeze).
  - apply list_elem_of_In in Hin. cbn in Hin.
    repeat (destruct Hin as [Hin|Hin]; [injection Hin as <- <- <-; first [discriminate | intros _; vm_compute; reflexivity]|]).
    destruct Hin.
Qed.

Lemma footprint_copy_files self (force : bool) :
  footprint (content:=content)
    (dest_events (out_path self) copy_names) (dest_keys (out_path self) copy_names)
    (copy_files self force).
Proof.
  unfold copy_files. apply footprint_for_each.
  intros [[fn0 fn1] squeeze] Hin.
  apply file_renames_names in Hin as [Hfn1 Hnpy].
  apply footprint_bind.
  { apply footprint__copy_if_possible; fp_side. }
  intros _. apply footprint_bind; [apply footprint_file_exists|].
  intros e. destruct (e && is_true squeeze && String.eqb (suffix fn0) ".npy") eqn:Hc;
    [|apply footprint_ret].
  apply andb_prop in Hc as [Hc _]. apply andb_prop in Hc as [_ Hsq].
  specialize (Hnpy Hsq).
  repeat first [ fp_step
               | apply footprint_np_save; cbn [fst snd]; rewrite Hnpy; fp_side ].
Qed.

(** Deleting the scratch file of the directory [dir]. *)
Definition scratch_events (dir : string) (e : event) : Prop :=
  e = EUnlink (resolve dir, "temp_wh.dat").
Definition scratch_keys (dir : string) (k : string * string) : Prop :=
  k = (resolve dir, "temp_wh.dat").

Lemma footprint_rm_files self :
  footprint (content:=content)
    (scratch_events (dir_path (model self))) (scratch_keys (dir_path (model self)))
    (rm_files self).
Proof.
  unfold rm_files, FILE_DELETES. cbn [for_each].
  repeat first [ by apply footprint_unlink | fp_step ].
Qed.

(** Renaming one file of the directory [out] to another. *)
Definition rename_events (out : string) (e : event) : Prop :=
  match e with
  | ERename s d => s.1 = resolve out /\ d.1 = resolve out
  | _ => False
  end.
Definition dir_keys (out : string) (k : string * string) : Prop :=
  k.1 = resolve out.

Lemma footprint_rename_with_label self :
  footprint (content:=content)
    (rename_events (out_path self)) (dir_keys (out_path self))
    (rename_with_label self).
Proof.
  unfold rename_with_label.
  destruct (String.eqb (label self) ""); [apply footprint_ret|].
  apply footprint_for_each. intros pattern _.
  apply footprint_bind; [apply footprint_listdir|]. intros names.
  apply footprint_for_each. intros f _.
  apply footprint_bind; [apply footprint_lift|]. intros new.
  by apply footprint_rename.
Qed.
End ConvertFootprint.

Section ConvertFrame.
Context {F content : Type} `{ArgSort F} `{NpyIO F content}
        `{Resolve} `{Uuid} `{LiteralEval}.
Implicit Types (self : EphysAlfCreator F).

(** The mutations [convert] may perform: making the destination, writing,
    copying to or renaming within the destination, and deleting the
    scratch file of the source. *)
Definition convert_events (out dir : string) (e : event) : Prop :=
  match e with
  | EMkdir d => d = resolve out
  | EWrite k | ECopy _ k => k.1 = resolve out
  | ERename s d => s.1 = resolve out /\ d.1 = resolve out
  | EUnlink k => k = (resolve dir, "temp_wh.dat")
  end.

Definition convert_keys (out dir : string) (k : string * string) : Prop :=
  k.1 = resolve out \/ k = (resolve dir, "temp_wh.dat").

Lemma dest_events_convert out dir ns e :
  dest_events out ns e -> convert_events out dir e.
Proof. destruct e; cbn; unfold dest_keys; tauto. Qed.

Lemma dest_keys_convert out dir ns k : dest_keys out ns k -> convert_keys out dir k.
Proof. unfold dest_keys, convert_keys. tauto. Qed.

Lemma footprint_dest_stage {A} out dir ns (m : M content A) :
  footprint (dest_events out ns) (dest_keys out ns) m ->
  footprint (convert_events out dir) (convert_keys out dir) m.
Proof.
  apply footprint_mono; [apply dest_events_convert | apply dest_keys_convert].
Qed.

Lemma footprint_rm_files_convert self :
  footprint (content:=content)
    (convert_events (out_path self) (dir_path (model self)))
    (convert_keys (out_path self) (dir_path (model self)))
    (rm_files self).
Proof.
  eapply footprint_mono; [| |apply footprint_rm_files].
  - intros e ->. reflexivity.
  - intros k ->. by right.
Qed.

Lemma footprint_rename_convert self :
  footprint (content:=content)
    (convert_events (out_path self) (dir_path (model self)))
    (convert_keys (out_path self) (dir_path (model self)))
    (rename_with_label self).
Proof.
  eapply footprint_mono; [| |apply footprint_rename_with_label].
  - intros []; cbn; tauto.
  - intros k Hk. by left.
Qed.

Lemma footprint_convert (m : TemplateModel F) (out : string) (force : bool)
    (label : string) (ampfactor : F) :
  footprint (content:=content)
    (convert_events out (dir_path m)) (convert_keys out (dir_path m))
    (convert m out force label ampfactor).
Proof.
  unfold convert.
  destruct (decide (resolve out = resolve (dir_path m))); [apply footprint_raise|].
  apply footprint_bind; [apply footprint_dir_exists|]. intros e.
  apply footprint_bind.
  { destruct (negb e); [by apply footprint_mkdir | apply footprint_ret]. }
  intros _.
  set (self := {| model := m; out_path := out; label := label;
                  ampfactor := ampfactor |}).
  change (convert_events out (dir_path m))
    with (convert_events (out_path self) (dir_path (model self))).
  change (convert_keys out (dir_path m))
    with (convert_keys (out_path self) (dir_path (model self))).
  apply footprint_bind;
    [exact (footprint_dest_stage _ _ _ _ (footprint_copy_files self force))
    | intros _].
  apply footprint_bind;
    [exact (footprint_dest_stage _ _ _ _ (footprint_make_spike_times_amplitudes self))
    | intros _].
  apply footprint_bind;
    [exact (footprint_dest_stage _ _ _ _ (footprint_make_cluster_objects self))
    | intros _].
  apply footprint_bind;
    [exact (footprint_dest_stage _ _ _ _ (footprint_make_channel_objects self))
    | intros _].
  apply footprint_bind;
    [exact (footprint_dest_stage _ _ _ _ (footprint_make_depths self))
    | intros _].
  apply footprint_bind;
    [exact (footprint_dest_stage _ _ _ _ (footprint_make_template_object self))
    | intros _].
  apply footprint_bind; [apply footprint_rm_files_convert | intros _].
  apply footprint_bind; [apply footprint_rename_convert | intros _].
  apply footprint_bind; [apply footprint_file_exists | intros e'].
  destruct e'; apply footprint_ret.
Qed.

(** X1: [convert] touches nothing but the destination directory and the
    scratch file [temp_wh.dat] of the source: every other file is after
    the call, whether it returned or raised, what it was before; no
    directory is removed; and every mutation performed is the making of
    the destination, a write, copy or rename inside it, or the deletion of
    that scratch file. *)
Theorem convert_frame (m : TemplateModel F) (out : string) (force : bool)
    (label : string) (ampfactor : F) (w : world content) :
  let w' := (convert m out force label ampfactor w).1 in
  dirs w ⊆ dirs w' /\
  (forall k, k.1 ≠ resolve out -> k ≠ (resolve (dir_path m), "temp_wh.dat") ->
             files w' !! k = files w !! k) /\
  exists new, trace w' = new ++ trace w /\
              Forall (convert_events out (dir_path m)) new.
Proof.
  destruct (footprint_convert m out force label ampfactor w) as [Hd Ht Hf].
  split; [exact Hd|]. split; [|exact Ht].
  intros k Hk1 Hk2. apply Hf. unfold convert_keys. tauto.
Qed.
End ConvertFrame.

(** ** FileMigrator: [_copy_if_possible] *)

Section CopyPolicy.
Context {F content : Type} `{NpyIO F content} `{Resolve}.

Lemma file_exists_run (p : path) (w : world content) :
  file_exists p w = (w, Ok (bool_decide (is_Some (files w !! key p)))).
Proof. reflexivity. Qed.

Lemma file_exists_true (p : path) (w : world content) :
  is_Some (files w !! key p) -> file_exists p w = (w, Ok true).
Proof. intros Hp. rewrite file_exists_run. by rewrite bool_decide_eq_true_2. Qed.

Lemma file_exists_false (p : path) (w : world content) :
  files w !! key p = None -> file_exists p w = (w, Ok false).
Proof.
  intros Hp. rewrite file_exists_run. rewrite bool_decide_eq_false_2; [done|].
  rewrite Hp. by intros [x Hx].
Qed.


End CopyPolicy.

(** A source directory that holds a settings file. *)
Definition world_with_params : world file :=
  {| dirs := {["ks"; "alf"]};
     files := {[ ("ks", "params.py") := FText "n_channels_dat = 4" ]};
     drawn := 0; trace := [] |}.



(** ** The layout check of [make_template_object], in general *)

(** The same model with no column map. *)
Definition without_cols {F : Type} (m : TemplateModel F) : TemplateModel F :=
  {| dir_path := dir_path m;
     spike_times := spike_times m;
     spike_samples := spike_samples m;
     amplitudes := amplitudes m;
     spike_clusters := spike_clusters m;
     n_templates := n_templates m;
     templates_channels := templates_channels m;
     templates_waveforms_durations := templates_waveforms_durations m;
     templates_amplitudes := templates_amplitudes m;
     channel_positions := channel_positions m;
     channel_probes := channel_probes m;
     channel_mapping := channel_mapping m;
     sparse_features := sparse_features m;
     sparse_templates :=
       {| st_shape := st_shape (sparse_templates m);
          st_data := st_data (sparse_templates m);
          st_cols := None |} |}.

Definition dense_export {F : Type} (self : EphysAlfCreator F) : EphysAlfCreator F :=
  {| model := without_cols (model self); out_path := out_path self;
     label := label self; ampfactor := ampfactor self |}.

Section LayoutCheck.
Context {F content : Type} `{ArgSort F} `{NpyIO F content} `{Resolve}.

(** X5: what [make_template_object] does when [sparse_templates.cols] is
    an array.  The test [if cols:] takes the truth value of the array.
    With two or more entries the test itself raises ValueError, so the
    NotImplementedError of the next line is not reached, and nothing is
    written.  With exactly one entry, a non-zero one raises the
    NotImplementedError and nothing is written; a zero one counts as
    false, as an array without entries does, and the dense export runs
    exactly as it does for the model without a column map. *)
Theorem make_template_object_cols (self : EphysAlfCreator F)
    (cols : list (list Z)) (w : world content) :
  st_cols (sparse_templates (model self)) = Some cols ->
  make_template_object self w =
    match concat cols with
    | [] => make_template_object (dense_export self) w
    | [x] => if Z.eqb x 0 then make_template_object (dense_export self) w
             else (w, Raise NotImplementedError)
    | _ :: _ :: _ => (w, Raise ValueError)
    end.
Proof.
  intros Hcols. destruct self as [m out lab amp]. cbn [model] in Hcols.
  destruct m as [dp stm ssm am sc nt tc twd ta cp cpr cm sf [shape data c]].
  cbn [sparse_templates st_cols] in Hcols. subst c.
  unfold make_template_object, dense_export, without_cols.
  cbn [model sparse_templates st_cols st_shape st_data cols_truth].
  rewrite !bind_run. unfold lift.
  destruct (concat cols) as [|x [|y rest]]; [reflexivity| |reflexivity].
  destruct (Z.eqb x 0); reflexivity.
Qed.
End LayoutCheck.

Lemma make_template_object_cols_witness :
  st_cols (sparse_templates (model (export_with_cols [[0; 1]; [1; 2]])))
    = Some [[0; 1]; [1; 2]] /\
  make_template_object (export_with_cols [[0; 1]; [1; 2]]) empty_world
    = (empty_world, Raise ValueError).
Proof.
  split; [reflexivity|].
  exact (make_template_object_cols (export_with_cols [[0; 1]; [1; 2]])
           [[0; 1]; [1; 2]] empty_world eq_refl).
Defined.

(** X6: with rectangular feature data and column map, the depths the
    batched loop of [make_depths] returns are one per spike, and the depth
    of spike [i] is the weighted centroid of its own row: with [feats] the
    squared first components of its local channels and [prod] their
    products with the vertical coordinates of the channels listed for its
    cluster, the sum over the channels of [prod / sum(feats)]. *)
Theorem batched_depths_centroids {F : Type} `{Arith F} (model : TemplateModel F)
    (sf : SparseFeatures F) (nl nc : nat) (nbatch : positive) (out : list F) :
  Forall (fun row => length row = nl) (sf_data sf) ->
  Forall (fun row => length row = nc) (sf_cols sf) ->
  batched_depths model sf nbatch = Ok out ->
  length out = nspi model /\
  forall i d, out !! i = Some d ->
    exists feats prod,
      spike_parts model sf i = Ok (feats, prod) /\
      d = np_sum ((fun x => fdiv x (np_sum feats)) <$> prod).
Proof.
  intros Hd Hc Hout.
  apply (batched_depths_Ok model sf nl nc Hd Hc) in Hout.
  pose proof (mapR_length _ _ _ Hout) as Hlen. rewrite length_seq in Hlen.
  split; [exact Hlen|]. intros i d Hi.
  apply mapR_Ok in Hout.
  assert (Hlt : (i < nspi model)%nat).
  { rewrite <- Hlen. by eapply lookup_lt_Some. }
  pose proof (Forall2_lookup_lr _ _ _ i i d Hout (lookup_seq_lt 0 _ i Hlt) Hi) as Hs.
  unfold spike_depth in Hs. apply fmap_Ok in Hs as ([feats prod] & Hp & ->).
  exists feats, prod. split; [exact Hp | reflexivity].
Qed.

Lemma batched_depths_centroids_witness :
  Forall (fun row => length row = 2%nat) (sf_data three_spikes) /\
  Forall (fun row => length row = 2%nat) (sf_cols three_spikes) /\
  batched_depths two_probes three_spikes 50000 = Ok [Num 8; Num 1; Num 10] /\
  length [Num 8; Num 1; Num 10] = nspi two_probes.
Proof.
  assert (Hd : Forall (fun row => length row = 2%nat) (sf_data three_spikes))
    by (repeat constructor).
  assert (Hc : Forall (fun row => length row = 2%nat) (sf_cols three_spikes))
    by (repeat constructor).
  assert (Hrun : batched_depths two_probes three_spikes 50000
                 = Ok [Num 8; Num 1; Num 10]) by (vm_compute; reflexivity).
  split; [exact Hd|]. split; [exact Hc|]. split; [exact Hrun|].
  exact (proj1 (batched_depths_centroids two_probes three_spikes 2 2 50000 _
                  Hd Hc Hrun)).
Defined.

(** ** The cluster files of [make_cluster_objects] and the depth stage *)

Section ClusterFiles.
Context {F content : Type} `{ArgSort F} `{NpyIO F content}
        `{Resolve} `{Uuid} `{LiteralEval}.
Implicit Types (self : EphysAlfCreator F) (w : world content).

Lemma preserves_file_exists_true {A} (I : world content -> Prop) (p : path)
    (f : bool -> M content A) :
  (forall w, I w -> is_Some (files w !! key p)) ->
  preserves I (f true) -> preserves I (file_exists p ≫= f).
Proof.
  intros Hp Hf w Hw. rewrite bind_run, (file_exists_true p w) by auto.
  by apply Hf.
Qed.

Lemma preserves_footprint {A} (I : world content -> Prop) E K (m : M content A) :
  (forall w w', I w -> touches E K w w' -> I w') ->
  footprint E K m -> preserves I m.
Proof. intros HI Hm w Hw. eapply HI; [exact Hw | apply Hm]. Qed.

(** The source holds [name] and the destination does not. *)
Definition only_in_source (dir out name : string) w : Prop :=
  is_Some (files w !! (resolve dir, name)) /\ files w !! (resolve out, name) = None.

Lemma only_in_source_touches dir out name ns w w' :
  resolve out ≠ resolve dir -> name ∉ ns ->
  only_in_source dir out name w ->
  touches (dest_events out ns) (dest_keys out ns) w w' ->
  only_in_source dir out name w'.
Proof.
  intros Hne Hns [Hs Hd] [_ _ Hf]. split.
  - rewrite Hf; [exact Hs|]. intros [Hk _]. cbn in Hk. congruence.
  - rewrite Hf; [exact Hd|]. intros [_ Hk]. cbn in Hk. contradiction.
Qed.

Lemma not_in_copy_names : "clusters.channels.npy" ∉ copy_names.
Proof. intros Hin. apply list_elem_of_In in Hin. cbn in Hin. intuition discriminate. Qed.

Lemma preserves_only_in_source_dest {A} dir out ns (m : M content A) :
  resolve out ≠ resolve dir -> "clusters.channels.npy" ∉ ns ->
  footprint (dest_events out ns) (dest_keys out ns) m ->
  preserves (only_in_source dir out "clusters.channels.npy") m.
Proof.
  intros Hne Hns Hm. eapply preserves_footprint; [|exact Hm].
  intros w w' Hw Ht. by eapply only_in_source_touches.
Qed.

Ltac not_in_names :=
  let Hin := fresh "Hin" in
  intros Hin; apply list_elem_of_In in Hin; cbn in Hin; intuition discriminate.

(** With the peak-channel file in the source, [make_cluster_objects]
    leaves the destination without one. *)
Lemma make_cluster_objects_only_in_source self :
  resolve (out_path self) ≠ resolve (dir_path (model self)) ->
  preserves (only_in_source (dir_path (model self)) (out_path self)
                            "clusters.channels.npy")
            (make_cluster_objects self).
Proof.
  intros Hne. unfold make_cluster_objects.
  apply preserves_file_exists_true; [by intros w [Hs _]|].
  cbn [negb].
  apply (preserves_only_in_source_dest _ _
           ["clusters.peakToTrough.npy"; "clusters.amps.npy"; "clusters.uuids.csv"]);
    [exact Hne | not_in_names |].
  repeat fp_step.
Qed.

Lemma make_depths_fails self :
  fails (only_in_source (dir_path (model self)) (out_path self)
                        "clusters.channels.npy")
        (make_depths self).
Proof.
  unfold make_depths. apply fails_bind_l. unfold np_load. apply fails_bind_l.
  intros w [Hs Hd]. unfold read_file, key. cbn. rewrite Hd. cbn.
  split; [by split | eauto].
Qed.

(** X7: when the source directory already holds [clusters.channels.npy]
    and the destination does not, [convert] never returns: the cluster
    stage checks the source and does not write the file, no other stage
    provides it, and the depth stage, which loads it from the destination,
    raises.  The destination is still without the file afterwards. *)
Theorem convert_needs_cluster_channels (m : TemplateModel F) (out : string)
    (force : bool) (label : string) (ampfactor : F) (w : world content) :
  resolve out ≠ resolve (dir_path m) ->
  is_Some (files w !! (resolve (dir_path m), "clusters.channels.npy")) ->
  files w !! (resolve out, "clusters.channels.npy") = None ->
  (exists e, (convert m out force label ampfactor w).2 = Raise e) /\
  files (convert m out force label ampfactor w).1
    !! (resolve out, "clusters.channels.npy") = None.
Proof.
  intros Hne Hs Hd.
  set (self := {| model := m; out_path := out; label := label;
                  ampfactor := ampfactor |}).
  assert (Hfails : fails (only_in_source (dir_path m) out "clusters.channels.npy")
                         (convert m out force label ampfactor)).
  { unfold convert. destruct (decide (resolve out = resolve (dir_path m)));
      [contradiction|].
    fold self.
    apply fails_bind_r.
    { apply (preserves_only_in_source_dest _ _ []); [exact Hne | not_in_names |].
      apply footprint_dir_exists. }
    intros e. apply fails_bind_r.
    { apply (preserves_only_in_source_dest _ _ []); [exact Hne | not_in_names |].
      destruct (negb e); [apply footprint_mkdir; reflexivity | apply footprint_ret]. }
    intros _. apply fails_bind_r.
    { apply (preserves_only_in_source_dest _ _ copy_names);
        [exact Hne | apply not_in_copy_names | apply (footprint_copy_files self)]. }
    intros _. apply fails_bind_r.
    { apply (preserves_only_in_source_dest _ _ spike_names);
        [exact Hne | not_in_names
        | apply (footprint_make_spike_times_amplitudes self)]. }
    intros _. apply fails_bind_r.
    { apply (make_cluster_objects_only_in_source self Hne). }
    intros _. apply fails_bind_r.
    { apply (preserves_only_in_source_dest _ _ channel_names);
        [exact Hne | not_in_names | apply (footprint_make_channel_objects self)]. }
    intros _. apply fails_bind_l. apply (make_depths_fails self). }
  destruct (Hfails w (conj Hs Hd)) as [[_ Hd'] He].
  split; [exact He | exact Hd'].
Qed.
End ClusterFiles.

(** A source directory that already holds the peak-channel file. *)
Definition world_with_channels : world file :=
  {| dirs := {["ks"; "alf"]};
     files := {[ ("ks", "clusters.channels.npy") := FNpy (NdInt [2%nat] [0; 3]) ]};
     drawn := 0; trace := [] |}.

Lemma alf_is_not_ks : resolve "alf" ≠ resolve (dir_path two_probes).
Proof. intros Heq. discriminate Heq. Defined.

Lemma convert_needs_cluster_channels_witness :
  resolve "alf" ≠ resolve (dir_path two_probes) /\
  is_Some (files world_with_channels
             !! (resolve (dir_path two_probes), "clusters.channels.npy")) /\
  files world_with_channels !! (resolve "alf", "clusters.channels.npy") = None /\
  (exists e, (convert two_probes "alf" false "" (Num 1) world_with_channels).2
             = Raise e).
Proof.
  assert (Hs : is_Some (files world_with_channels
                          !! (resolve (dir_path two_probes), "clusters.channels.npy")))
    by (eexists; reflexivity).
  assert (Hd : files world_with_channels
                 !! (resolve "alf", "clusters.channels.npy") = None)
    by reflexivity.
  split; [exact alf_is_not_ks|]. split; [exact Hs|]. split; [exact Hd|].
  exact (proj1 (convert_needs_cluster_channels two_probes "alf" false "" (Num 1)
                  world_with_channels alf_is_not_ks Hs Hd)).
Defined.

Example convert_without_cluster_channels :
  (convert two_probes "alf" false "" (Num 1) world_with_channels).2
    = Raise FileNotFoundError.
Proof. vm_compute. reflexivity. Qed.

(** ** When the selection stays on the probe *)

Section SameProbe.
Context {F : Type} `{ArgSort F}.
Variable m : TemplateModel F.

(** The channels that carry the probe number [probe], in index order. *)
Definition channels_on (probe : Z) : list nat :=
  filter (fun c => channel_probes m !! c = Some probe)
         (seq 0 (length (channel_probes m))).

Lemma elem_of_channels_on (probe : Z) (c : nat) :
  c ∈ channels_on probe <-> channel_probes m !! c = Some probe.
Proof.
  unfold channels_on. rewrite list_elem_of_filter, elem_of_seq. split.
  - by intros [Hc _].
  - intros Hc. split; [exact Hc|]. apply lookup_lt_Some in Hc. lia.
Qed.

Lemma NoDup_channels_on (probe : Z) : NoDup (channels_on probe).
Proof. apply NoDup_filter, NoDup_seq. Qed.

(** A distance plus infinity never sorts below or equal to a distance, for
    distances to the position [p0]. *)
Definition inf_sorts_last (p0 : list F) : Prop :=
  Forall (fun pa => Forall (fun pb => fleb (fadd (l1 pb p0) finf) (l1 pa p0) = false)
                           (channel_positions m))
         (channel_positions m).

Lemma sort_key_on_probe (p0 : list F) (probe : Z) (a : nat) (pa : list F) :
  channel_probes m !! a = Some probe -> channel_positions m !! a = Some pa ->
  zip_with (sort_key p0 probe) (channel_positions m) (channel_probes m) !! a
    = Some (l1 pa p0).
Proof.
  intros Hqa Hpa. rewrite lookup_zip_with, Hpa. cbn. rewrite Hqa. cbn.
  unfold sort_key. by rewrite Z.eqb_refl.
Qed.

Lemma sort_key_off_probe (p0 : list F) (probe qb : Z) (b : nat) (pb : list F) :
  channel_probes m !! b = Some qb -> qb ≠ probe ->
  channel_positions m !! b = Some pb ->
  zip_with (sort_key p0 probe) (channel_positions m) (channel_probes m) !! b
    = Some (fadd (l1 pb p0) finf).
Proof.
  intros Hqb Hne Hpb. rewrite lookup_zip_with, Hpb. cbn. rewrite Hqb. cbn.
  unfold sort_key. destruct (Z.eqb_spec qb probe) as [->|_]; [contradiction|].
  reflexivity.
Qed.

(** The counting argument: when [ncw] or more channels are on the probe,
    the first [ncw] indices of the argsort are all on it. *)
Lemma take_argsort_on_probe (ncw : nat) (probe : Z) (p0 : list F)
    (on_probe : list nat) :
  length (channel_probes m) = length (channel_positions m) ->
  NoDup on_probe ->
  Forall (fun c => channel_probes m !! c = Some probe) on_probe ->
  (ncw <= length on_probe)%nat ->
  inf_sorts_last p0 ->
  let d := zip_with (sort_key p0 probe) (channel_positions m) (channel_probes m) in
  (ncw <= length d)%nat /\
  forall a, a ∈ take ncw (argsort d) -> channel_probes m !! a = Some probe.
Proof.
  intros Hlen Hnd Hon Hcount Hinf d.
  assert (Hd : length d = length (channel_positions m)).
  { subst d. rewrite length_zip_with. lia. }
  assert (Hrange : forall c, c ∈ on_probe -> (c < length d)%nat).
  { intros c Hc. rewrite Forall_forall in Hon. rewrite Hd, <- Hlen.
    eapply lookup_lt_Some, Hon, Hc. }
  assert (Hk : (ncw <= length d)%nat).
  { etrans; [exact Hcount|].
    etrans; [apply submseteq_length, (NoDup_submseteq _ (seq 0 (length d)) Hnd)|].
    - intros c Hc. apply elem_of_seq. split; [lia|]. cbn. by apply Hrange.
    - by rewrite length_seq. }
  split; [exact Hk|].
  destruct (take_argsort_spec d ncw Hk) as (Hl & Hndi & Hr & _ & Hcut).
  intros b Hb.
  destruct (decide (channel_probes m !! b = Some probe)) as [Hyes|Hno]; [exact Hyes|].
  exfalso.
  destruct (decide (Forall (fun a => a ∈ take ncw (argsort d)) on_probe)) as [Hall|Hnot].
  - assert (Hsub : b :: on_probe ⊆+ take ncw (argsort d)).
    { apply NoDup_submseteq.
      - apply NoDup_cons. split; [|exact Hnd].
        intros Hbon. rewrite Forall_forall in Hon. by apply Hno, Hon.
      - intros x Hx. apply elem_of_cons in Hx as [->|Hx]; [exact Hb|].
        rewrite Forall_forall in Hall. by apply Hall. }
    apply submseteq_length in Hsub. cbn in Hsub. lia.
  - apply not_Forall_Exists in Hnot; [|intros; apply _].
    apply Exists_exists in Hnot as (a & Ha & Hna).
    assert (Hqa : channel_probes m !! a = Some probe).
    { rewrite Forall_forall in Hon. by apply Hon. }
    pose proof (Hr b Hb) as Hbd. rewrite Hd in Hbd.
    destruct (lookup_lt_is_Some_2 (channel_positions m) b Hbd) as [pb Hpb].
    destruct (lookup_lt_is_Some_2 (channel_probes m) b ltac:(lia)) as [qb Hqb].
    pose proof (Hrange a Ha) as Had. rewrite Hd in Had.
    destruct (lookup_lt_is_Some_2 (channel_positions m) a Had) as [pa Hpa].
    assert (Hne : qb ≠ probe) by (intros ->; by apply Hno).
    pose proof (Hcut b a _ _ Hb (Hrange a Ha) Hna
                  (sort_key_off_probe p0 probe qb b pb Hqb Hne Hpb)
                  (sort_key_on_probe p0 probe a pa Hqa Hpa)) as Hle.
    unfold inf_sorts_last in Hinf. rewrite Forall_forall in Hinf.
    pose proof (Hinf pa (list_elem_of_lookup_2 _ _ _ Hpa)) as Hinf'.
    rewrite Forall_forall in Hinf'.
    rewrite (Hinf' pb (list_elem_of_lookup_2 _ _ _ Hpb)) in Hle. discriminate.
Qed.

(** The row of one template when its probe has [ncw] channels or more:
    [ncw] distinct channels of the probe, in non-decreasing order of their
    L1 distance to the peak, and no channel of the probe left out is
    closer than one taken. *)
Lemma nearest_channels_on_probe (ncw t peak : nat) (probe : Z) (p0 : list F) :
  templates_channels m !! t = Some peak ->
  channel_probes m !! peak = Some probe ->
  channel_positions m !! peak = Some p0 ->
  length (channel_probes m) = length (channel_positions m) ->
  Forall (fun p => length p = length p0) (channel_positions m) ->
  (ncw <= length (channels_on probe))%nat ->
  inf_sorts_last p0 ->
  exists inds,
    nearest_channels m ncw t = Ok inds /\
    length inds = ncw /\ NoDup inds /\
    (forall a, a ∈ inds -> channel_probes m !! a = Some probe) /\
    (forall i j a b pa pb, (i <= j)%nat ->
       inds !! i = Some a -> inds !! j = Some b ->
       channel_positions m !! a = Some pa -> channel_positions m !! b = Some pb ->
       fleb (l1 pa p0) (l1 pb p0) = true) /\
    (forall a b pa pb, a ∈ inds -> b ∉ inds ->
       channel_probes m !! b = Some probe ->
       channel_positions m !! a = Some pa -> channel_positions m !! b = Some pb ->
       fleb (l1 pa p0) (l1 pb p0) = true).
Proof.
  intros Ht Hq Hp0 Hlen Hrect Hcount Hinf.
  set (d := zip_with (sort_key p0 probe) (channel_positions m) (channel_probes m)).
  assert (Hon : Forall (fun c => channel_probes m !! c = Some probe)
                       (channels_on probe)).
  { apply Forall_forall. intros c. apply elem_of_channels_on. }
  destruct (take_argsort_on_probe ncw probe p0 (channels_on probe) Hlen
              (NoDup_channels_on probe) Hon Hcount Hinf) as [Hk Hprobe].
  fold d in Hk, Hprobe.
  destruct (take_argsort_spec d ncw Hk) as (Hl & Hndi & Hr & Hs & Hcut).
  exists (take ncw (argsort d)).
  split.
  { unfold nearest_channels.
    rewrite (channel_distance_Ok m t peak probe p0 Ht Hq Hp0 Hlen Hrect). cbn.
    fold d. unfold assign_row. by rewrite decide_True. }
  split; [exact Hl|]. split; [exact Hndi|]. split; [exact Hprobe|]. split.
  - intros i j a b pa pb Hij Hi Hj Hpa Hpb.
    apply (Hs i j a b _ _ Hij Hi Hj).
    + apply sort_key_on_probe; [|exact Hpa].
      apply Hprobe. by eapply list_elem_of_lookup_2.
    + apply sort_key_on_probe; [|exact Hpb].
      apply Hprobe. by eapply list_elem_of_lookup_2.
  - intros a b pa pb Ha Hb Hqb Hpa Hpb.
    apply (Hcut a b _ _ Ha); [|exact Hb| |].
    + subst d. rewrite length_zip_with. apply lookup_lt_Some in Hpb.
      apply lookup_lt_Some in Hqb. lia.
    + apply sort_key_on_probe; [by apply Hprobe | exact Hpa].
    + by apply sort_key_on_probe.
Qed.

(** X8: the selection stays on the peak's probe when that probe has enough
    channels.  If [on_probe] lists [ncw] or more distinct channels of the
    peak's probe, and no distance plus infinity sorts below or equal to a
    distance, then every one of the [ncw] channels selected for the
    template is on the peak's probe, however close a channel of another
    probe lies. *)
Theorem nearest_channels_same_probe (ncw t peak : nat) (probe : Z) (p0 : list F)
    (on_probe : list nat) :
  templates_channels m !! t = Some peak ->
  channel_probes m !! peak = Some probe ->
  channel_positions m !! peak = Some p0 ->
  length (channel_probes m) = length (channel_positions m) ->
  Forall (fun p => length p = length p0) (channel_positions m) ->
  NoDup on_probe ->
  Forall (fun c => channel_probes m !! c = Some probe) on_probe ->
  (ncw <= length on_probe)%nat ->
  Forall (fun pa => Forall (fun pb => fleb (fadd (l1 pb p0) finf) (l1 pa p0) = false)
                           (channel_positions m))
         (channel_positions m) ->
  exists inds,
    nearest_channels m ncw t = Ok inds /\ length inds = ncw /\
    forall a, a ∈ inds -> channel_probes m !! a = Some probe.
Proof.
  intros Ht Hq Hp0 Hlen Hrect Hnd Hon Hcount Hinf.
  set (d := zip_with (sort_key p0 probe) (channel_positions m) (channel_probes m)).
  destruct (take_argsort_on_probe ncw probe p0 on_probe Hlen Hnd Hon Hcount Hinf)
    as [Hk Hprobe].
  fold d in Hk, Hprobe.
  destruct (take_argsort_spec d ncw Hk) as (Hl & _).
  exists (take ncw (argsort d)). split; [|split; [exact Hl | exact Hprobe]].
  unfold nearest_channels.
  rewrite (channel_distance_Ok m t peak probe p0 Ht Hq Hp0 Hlen Hrect). cbn.
  fold d. unfold assign_row. by rewrite decide_True.
Qed.
End SameProbe.

(** Thirty-two channels in a column on probe 0 and two channels of probe 1
    right next to its first channel. *)
Definition long_probe : TemplateModel ext := {|
  dir_path := "ks";
  spike_times := [];
  spike_samples := [];
  amplitudes := [];
  spike_clusters := [];
  n_templates := 1;
  templates_channels := [0%nat];
  templates_waveforms_durations := [Num 4];
  templates_amplitudes := [Num 2];
  channel_positions := ((fun y => xy 0 y) <$> seqZ 0 32) ++ [xy 1 0; xy 1 1];
  channel_probes := replicate 32 0 ++ [1; 1];
  channel_mapping := seqZ 0 34;
  sparse_features := None;
  sparse_templates :=
    {| st_shape := (1, 1, 34)%nat;
       st_data := [[Num <$> seqZ 0 34]];
       st_cols := None |}
|}.

Lemma nearest_channels_same_probe_witness :
  templates_channels long_probe !! 0%nat = Some 0%nat /\
  channel_probes long_probe !! 0%nat = Some 0 /\
  channel_positions long_probe !! 0%nat = Some (xy 0 0) /\
  NoDup (seq 0 32) /\
  (Nat.min NCH_WAVEFORMS 34 <= length (seq 0 32))%nat /\
  exists inds,
    nearest_channels long_probe (Nat.min NCH_WAVEFORMS 34) 0 = Ok inds /\
    length inds = Nat.min NCH_WAVEFORMS 34 /\
    forall a, a ∈ inds -> channel_probes long_probe !! a = Some 0.
Proof.
  assert (Hrect : Forall (fun p => length p = length (xy 0 0))
                         (channel_positions long_probe)).
  { apply (bool_decide_unpack _). vm_compute. exact I. }
  assert (Hon : Forall (fun c => channel_probes long_probe !! c = Some 0) (seq 0 32)).
  { apply (bool_decide_unpack _). vm_compute. exact I. }
  assert (Hcount : (Nat.min NCH_WAVEFORMS 34 <= length (seq 0 32))%nat).
  { vm_compute. repeat constructor. }
  assert (Hinf : Forall (fun pa => Forall (fun pb =>
                   fleb (fadd (l1 pb (xy 0 0)) finf) (l1 pa (xy 0 0)) = false)
                   (channel_positions long_probe)) (channel_positions long_probe)).
  { apply (bool_decide_unpack _). vm_compute. exact I. }
  split; [reflexivity|]. split; [reflexivity|]. split; [reflexivity|].
  split; [apply NoDup_seq|]. split; [exact Hcount|].
  exact (nearest_channels_same_probe long_probe (Nat.min NCH_WAVEFORMS 34) 0 0 0
           (xy 0 0) (seq 0 32) eq_refl eq_refl eq_refl eq_refl Hrect
           (NoDup_seq 0 32) Hon Hcount Hinf).
Defined.

(** ** The rows of [templates.waveformsChannels] *)

Lemma mapR_total {A B} (P : A -> B -> Prop) (f : A -> result B) (xs : list A) :
  (forall x, x ∈ xs -> exists y, f x = Ok y /\ P x y) ->
  exists ys, mapR f xs = Ok ys /\ Forall2 P xs ys.
Proof.
  induction xs as [|x xs IH]; intros Hf.
  - exists []. split; [reflexivity | constructor].
  - destruct (Hf x) as (y & Hy & HP); [by left|].
    destruct IH as (ys & Hys & HF); [intros x' Hx'; apply Hf; by right|].
    exists (y :: ys). split; [|by constructor].
    cbn. rewrite Hy. cbn. rewrite Hys. reflexivity.
Qed.

Section TemplateRows.
Context {F : Type} `{ArgSort F}.
Variable m : TemplateModel F.

Lemma template_waveform_Ok (t : nat) (inds : list nat) (wf : list (list F)) :
  st_data (sparse_templates m) !! t = Some wf ->
  Forall (fun row => Forall (fun c => (c < length row)%nat) inds) wf ->
  exists w, template_waveform m t inds = Ok w.
Proof.
  intros Ht Hwf. unfold template_waveform, getitem. rewrite Ht. cbn.
  eexists. apply mapR_pure. intros row Hrow.
  apply (mapR_pure _ (fun c => f32 (default fzero (row !! c)))).
  intros c Hc. rewrite Forall_forall in Hwf. specialize (Hwf row Hrow).
  rewrite Forall_forall in Hwf. specialize (Hwf c Hc).
  destruct (lookup_lt_is_Some_2 row c Hwf) as [x Hx].
  unfold getitem. rewrite Hx. reflexivity.
Qed.

(** What is asked of template [t] for a row of [ncw] slots: its peak is a
    channel of the model, the probe of the peak has [ncw] channels or
    more, and infinity sorts last among the distances to the peak. *)
Definition probe_fills_row (ncw t : nat) : Prop :=
  exists peak probe p0,
    templates_channels m !! t = Some peak /\
    channel_probes m !! peak = Some probe /\
    channel_positions m !! peak = Some p0 /\
    (ncw <= length (channels_on m probe))%nat /\
    inf_sorts_last m p0.

Lemma template_loop_on_probe (nt ncw dim : nat) :
  length (st_data (sparse_templates m)) = nt ->
  Forall (Forall (fun row => length row = length (channel_positions m)))
         (st_data (sparse_templates m)) ->
  length (channel_probes m) = length (channel_positions m) ->
  Forall (fun p => length p = dim) (channel_positions m) ->
  (forall t, (t < nt)%nat -> probe_fills_row ncw t) ->
  exists rows,
    template_loop m ncw (seq 0 nt) = Ok rows /\
    Forall2 (fun t r => nearest_channels m ncw t = Ok r.1) (seq 0 nt) rows.
Proof.
  intros Hdata Hrows Hlen Hdim Hfill. unfold template_loop.
  apply mapR_total. intros t Ht. apply elem_of_seq in Ht.
  destruct (Hfill t) as (peak & probe & p0 & Hpk & Hq & Hp0 & Hcount & Hinf); [lia|].
  assert (Hrect : Forall (fun p => length p = length p0) (channel_positions m)).
  { rewrite Forall_forall in Hdim. apply Forall_forall. intros p Hp.
    rewrite (Hdim p Hp). symmetry. apply Hdim. by eapply list_elem_of_lookup_2. }
  destruct (nearest_channels_on_probe m ncw t peak probe p0 Hpk Hq Hp0 Hlen Hrect
              Hcount Hinf) as (inds & Hinds & Hl & Hnd & Hon & _).
  destruct (lookup_lt_is_Some_2 (st_data (sparse_templates m)) t) as [wf Hwf]; [lia|].
  destruct (template_waveform_Ok t inds wf Hwf) as [w Hw].
  { rewrite Forall_forall in Hrows. specialize (Hrows wf (list_elem_of_lookup_2 _ _ _ Hwf)).
    eapply Forall_impl; [exact Hrows|]. intros row Hrow. cbn in Hrow.
    apply Forall_forall. intros c Hc. rewrite Hrow, <- Hlen.
    eapply lookup_lt_Some, Hon, Hc. }
  exists (inds, w). split; [|exact Hinds].
  rewrite Hinds. cbn. rewrite Hw. reflexivity.
Qed.
End TemplateRows.

Section WrittenRows.
Context {F content : Type} `{ArgSort F} `{NpyIO F content} `{Resolve}.

Lemma np_save_run (p : path) (a : ndarray F) (w : world content) :
  resolve p.1 ∈ dirs w ->
  np_save p a w =
    ({| dirs := dirs w;
        files := <[(resolve p.1, npy_name p.2) := np_save_content a]> (files w);
        drawn := drawn w;
        trace := EWrite (resolve p.1, npy_name p.2) :: trace w |}, Ok tt).
Proof.
  intros Hd. unfold np_save, write_file. cbn [fst snd].
  rewrite decide_True by exact Hd. reflexivity.
Qed.

End WrittenRows.

Definition export_long_probe : EphysAlfCreator ext :=
  {| model := long_probe; out_path := "alf"; label := ""; ampfactor := Num 1 |}.


(** ** An argsort that is not stable *)

(** The indices are inserted in ascending order, each in front of the
    first index whose key is not smaller: the keys come out in
    non-decreasing order, and of two equal keys the later index comes
    first. *)
Definition ties_last_first_argsort {F : Type} `{Arith F} (l : list F) : list nat :=
  foldr (insert_index l) [] (rev (seq 0 (length l))).

Section TiesLastFirst.
Context {F : Type} `{Arith F}.
Hypothesis fleb_total : forall x y : F, fleb x y = true \/ fleb y x = true.
Hypothesis fleb_trans : forall x y z : F,
    fleb x y = true -> fleb y z = true -> fleb x z = true.
Variable l : list F.

Lemma ties_last_first_perm : ties_last_first_argsort l ≡ₚ seq 0 (length l).
Proof.
  unfold ties_last_first_argsort. rewrite foldr_insert_index_perm.
  symmetry. apply Permutation_rev.
Qed.

Lemma ties_last_first_sorted i j a b x y :
  (i <= j)%nat ->
  ties_last_first_argsort l !! i = Some a -> ties_last_first_argsort l !! j = Some b ->
  l !! a = Some x -> l !! b = Some y -> fleb x y = true.
Proof.
  intros Hij Hi Hj Ha Hb.
  destruct (decide (i = j)) as [->|Hne].
  - rewrite Hi in Hj. injection Hj as <-. rewrite Ha in Hb. injection Hb as <-.
    by destruct (fleb_total x x).
  - assert (Hs : StronglySorted (before l) (ties_last_first_argsort l)).
    { apply (foldr_insert_index_sorted fleb_total fleb_trans).
      apply Forall_forall. intros k Hk. apply list_elem_of_In, in_rev in Hk.
      apply in_seq in Hk. lia. }
    eapply (StronglySorted_lookup_le (before l) _ i j a b Hs); eauto. lia.
Qed.
End TiesLastFirst.

(** Within numpy's contract for [argsort], beside the stable one. *)
Definition ext_argsort_ties_last_first : ArgSort ext := {|
  argsort := ties_last_first_argsort;
  argsort_perm := ties_last_first_perm;
  argsort_sorted := ties_last_first_sorted ext_leb_total ext_leb_trans
|}.

(** Three channels in a column on one probe; the peak of the one template
    is the middle channel, and the two others are equally far from it. *)
Definition column : TemplateModel ext := {|
  dir_path := "ks";
  spike_times := [];
  spike_samples := [];
  amplitudes := [];
  spike_clusters := [];
  n_templates := 1;
  templates_channels := [1%nat];
  templates_waveforms_durations := [Num 4];
  templates_amplitudes := [Num 2];
  channel_positions := [xy 0 0; xy 0 10; xy 0 20];
  channel_probes := [0; 0; 0];
  channel_mapping := [0; 1; 2];
  sparse_features := None;
  sparse_templates :=
    {| st_shape := (1, 1, 3)%nat;
       st_data := [[[Num 1; Num 2; Num 3]]];
       st_cols := None |}
|}.

Definition export_column : EphysAlfCreator ext :=
  {| model := column; out_path := "alf"; label := ""; ampfactor := Num 1 |}.

